(** * Typo detector notebook: token/word alignment and typo annotation

    Shallow embedding of the helper functions of
    [notebooks/245-typo-detector/245-typo-detector.ipynb]:
    [token_to_words], [get_typo_indexes], [sentence_split] and both
    definitions of [show_typos]: the one built on the converted OpenVINO IR
    model ([show_typos]) and the earlier one built on the Hugging Face
    pipeline ([Optimum.show_typos]).

    The tokenizer and the compiled model are external collaborators; they are
    taken as functions of the sentence (Section variables).  Python values are
    modelled as follows:
    - [str]   : [string]; characters are [ascii];
    - [int]   : [Z];
    - [list]  : [list], indexed with Python's rule for negative indexes;
    - [dict]  : stdpp's [gmap string Z] (only lookups are observed);
    - the result tensor of shape [1, L, 2] : [list (list (list score))], a
      score being an exact rational or NaN;
    - a raised exception : the [Raise] constructor of [res]. *)

From Stdlib Require Import ZArith QArith Ascii String List Lia.
From stdpp Require Import gmap strings list fin_maps sorting.

Open Scope Z_scope.

(** ** Exceptions *)

Inductive exn := IndexError | KeyError | ValueError.

Inductive res (A : Type) : Type :=
| Ok (a : A)
| Raise (e : exn).
Arguments Ok {A} a.
Arguments Raise {A} e.

#[global] Instance res_ret : MRet res := @Ok.
#[global] Instance res_bind : MBind res := λ A B k m,
  match m with
  | Ok a => k a
  | Raise e => Raise e
  end.

(** [xs[i]] for a Python list, negative indexes counting from the end. *)
Definition py_getitem {A} (xs : list A) (i : Z) : res A :=
  let n := Z.of_nat (length xs) in
  let j := if i <? 0 then i + n else i in
  if (j <? 0) || (n <=? j) then Raise IndexError
  else match xs !! Z.to_nat j with
       | Some x => Ok x
       | None => Raise IndexError
       end.

(** [d[k]] for a Python dict. *)
Definition py_dictitem (d : gmap string Z) (k : string) : res Z :=
  match d !! k with
  | Some v => Ok v
  | None => Raise KeyError
  end.

(** [[f(x) for x in xs]], stopping at the first exception. *)
Fixpoint comprehension {A B} (f : A → res B) (xs : list A) : res (list B) :=
  match xs with
  | [] => Ok []
  | x :: xs' => y ← f x; ys ← comprehension f xs'; Ok (y :: ys)
  end.

(** ** Token-to-word mapper *)

(** [token.startswith('##')] *)
Definition is_continuation (token : string) : bool := String.prefix "##" token.

(** One iteration of the [for token in tokens] loop; the state is
    [(word_count, map_to_words)]. *)
Definition token_step (st : Z * gmap string Z) (token : string)
  : Z * gmap string Z :=
  let '(word_count, map_to_words) := st in
  if is_continuation token then (word_count, <[token := word_count]> map_to_words)
  else (word_count + 1, <[token := word_count + 1]> map_to_words).

Definition token_loop (st : Z * gmap string Z) (tokens : list string)
  : Z * gmap string Z :=
  fold_left token_step tokens st.

Definition token_to_words (tokens : list string) : gmap string Z :=
  snd (token_loop (-1, ∅) tokens).

(** ** Typo index extractor *)

(** A floating-point score: a number or NaN. *)
Inductive score := Num (q : Q) | NaN.

Definition is_nan (x : score) : bool :=
  match x with
  | NaN => true
  | Num _ => false
  end.

(** [x <= best] on floats: false as soon as one side is NaN. *)
Definition score_le (x best : score) : bool :=
  match x, best with
  | Num a, Num b => Qle_bool a b
  | _, _ => false
  end.

(** [np.argmax(row)]: index of the first NaN if there is one, of the first
    maximal entry otherwise.  The scan replaces the running maximum when
    [x <= best] fails, and stops at a NaN. *)
Fixpoint argmax_scan (best_i : Z) (best : score) (i : Z) (xs : list score) : Z :=
  match xs with
  | [] => best_i
  | x :: xs' =>
      if score_le x best then argmax_scan best_i best (i + 1) xs'
      else if is_nan x then i
      else argmax_scan i x (i + 1) xs'
  end.

Definition np_argmax (row : list score) : res Z :=
  match row with
  | [] => Raise ValueError
  | x :: xs => if is_nan x then Ok 0 else Ok (argmax_scan 0 x 1 xs)
  end.

(** [xs[1:-1]] *)
Definition slice_1_m1 {A} (xs : list A) : list A := removelast (tail xs).

(** Body of [for i in result_list]; the state is [(wrong_words, c)]. *)
Definition typo_step (map_to_words : gmap string Z) (tokens : list string)
    (st : list Z * Z) (i : list score) : res (list Z * Z) :=
  let '(wrong_words, c) := st in
  prob ← np_argmax i;
  if prob =? 1 then
    token ← py_getitem tokens c;
    w ← py_dictitem map_to_words token;
    if bool_decide (w ∈ wrong_words) then Ok (wrong_words, c + 1)
    else Ok (wrong_words ++ [w], c + 1)
  else Ok (wrong_words, c + 1).

Fixpoint typo_loop (map_to_words : gmap string Z) (tokens : list string)
    (st : list Z * Z) (result_list : list (list score)) : res (list Z * Z) :=
  match result_list with
  | [] => Ok st
  | i :: rest =>
      st' ← typo_step map_to_words tokens st i;
      typo_loop map_to_words tokens st' rest
  end.

Definition get_typo_indexes (result : list (list (list score)))
    (map_to_words : gmap string Z) (tokens : list string) : res (list Z) :=
  result0 ← py_getitem result 0;
  st ← typo_loop map_to_words tokens ([], 0) (slice_1_m1 result0);
  Ok (fst st).

(** Scores of a token the classifier considers correct, resp. a typo. *)
Definition row_ok : list score := [Num (9 # 10); Num (1 # 10)].
Definition row_typo : list score := [Num (1 # 10); Num (9 # 10)].
Definition row_sentinel : list score := [Num (1 # 2); Num (1 # 2)].

(** ** Sentence splitter *)

(** The character class [[',. ]] of the splitting pattern. *)
Definition is_delim (c : ascii) : bool :=
  (c =? "'")%char || (c =? ",")%char || (c =? ".")%char || (c =? " ")%char.

(** [re.split("([',. ])", s)]: the pattern matches exactly one character, so
    the result alternates the text between two matches ([cur], possibly empty)
    and the captured delimiter. *)
Fixpoint re_split_from (cur s : string) : list string :=
  match s with
  | EmptyString => [cur]
  | String c s' =>
      if is_delim c then cur :: String c "" :: re_split_from "" s'
      else re_split_from (cur +:+ String c "") s'
  end.

Definition re_split (s : string) : list string := re_split_from "" s.

Definition sentence_split (sentence : string) : list string :=
  filter (λ x, x ≠ " " ∧ x ≠ "") (re_split sentence).

(** ** Annotation *)

(** [s.replace("", new)]: [new] before every character and at the end. *)
Fixpoint replace_empty (new s : string) : string :=
  match s with
  | EmptyString => new
  | String c s' => new +:+ String c (replace_empty new s')
  end.

(** [s.replace(old, new)] for a non-empty [old]: left-to-right scan replacing
    every non-overlapping match.  [skip] counts the characters of the match
    just replaced that are still to be stepped over. *)
Fixpoint replace_scan (old new : string) (skip : nat) (s : string) : string :=
  match s with
  | EmptyString => ""
  | String c s' =>
      match skip with
      | S k => replace_scan old new k s'
      | O =>
          if String.prefix old s
          then new +:+ replace_scan old new (String.length old - 1) s'
          else String c (replace_scan old new 0 s')
      end
  end.

Definition str_replace (s old new : string) : string :=
  if decide (old = "") then replace_empty new s else replace_scan old new 0 s.

(** [f'<i>{typo}</i>'] *)
Definition mark (typo : string) : string := "<i>" +:+ typo +:+ "</i>".

(** The loop [for typo in typos: detected = detected.replace(...)]. *)
Definition annotate (sentence : string) (typos : list string) : string :=
  fold_left (λ detected typo, str_replace detected typo (mark typo))
            typos sentence.

Fixpoint str_repeat (s : string) (n : nat) : string :=
  match n with
  | O => ""
  | S n' => s +:+ str_repeat s n'
  end.

(** What [show_typos] writes: one string per [print] call. *)
Definition printed (sentence detected : string) : list string :=
  [ "   [Input]: " +:+ " " +:+ sentence;
    "[Detected]: " +:+ " " +:+ detected;
    str_repeat "-" 130 ].

Section Pipeline.
(** [tokenizer.tokenize] and [infer] (tokenizer plus compiled model). *)
Variable tokenize : string → list string.
Variable infer : string → list (list (list score)).

(** The list [typo_indexes] computed in [show_typos]. *)
Definition typo_indexes_of (sentence : string) : res (list Z) :=
  let tokens := tokenize sentence in
  let map_to_words := token_to_words tokens in
  let result := infer sentence in
  get_typo_indexes result map_to_words tokens.

Definition show_typos (sentence : string) : res (list string) :=
  typo_indexes ← typo_indexes_of sentence;
  let sentence_words := sentence_split sentence in
  typos ← comprehension (py_getitem sentence_words) typo_indexes;
  let detected := annotate sentence typos in
  Ok (printed sentence detected).
End Pipeline.

(** The first definition of [show_typos], on the token-classification
    pipeline [nlp], which returns character spans. *)
Module Optimum.

Record entity := { start : Z; end_ : Z }.

(** [s[a:b]] *)
Definition py_slice (s : string) (a b : Z) : string :=
  let n := Z.of_nat (String.length s) in
  let clamp i := Z.max 0 (Z.min n (if i <? 0 then i + n else i)) in
  String.substring (Z.to_nat (clamp a)) (Z.to_nat (clamp b - clamp a)) s.

Definition printed (sentence detected : string) : list string :=
  [ "[Input]: " +:+ " " +:+ sentence;
    "[Detected]: " +:+ " " +:+ detected;
    str_repeat "-" 130 ].

Definition show_typos (nlp : string → list entity) (sentence : string)
  : list string :=
  let typos := map (λ r, py_slice sentence (start r) (end_ r)) (nlp sentence) in
  let detected := annotate sentence typos in
  printed sentence detected.

End Optimum.

(** Whitespace tokenizer stub and a classifier stub flagging the token
    positions listed in [flagged]. *)
Definition stub_tokenize (tokens : list string) : string → list string :=
  λ _, tokens.

Definition stub_infer (n : nat) (flagged : list nat)
  : string → list (list (list score)) :=
  λ _, [row_sentinel ::
        map (λ c, if bool_decide (c ∈ flagged) then row_typo else row_ok)
            (seq 0 n) ++ [row_sentinel]].

(** ** Specification-side notions *)

(** Number of word-initial (non-continuation) tokens of a token list. *)
Fixpoint count_words (tokens : list string) : Z :=
  match tokens with
  | [] => 0
  | t :: rest => (if is_continuation t then 0 else 1) + count_words rest
  end.

(** Position [j] holds the nearest non-continuation token before position
    [i]: every token after [j] up to and including [i] is a continuation. *)
Definition nearest_word_start (tokens : list string) (j i : nat) : Prop :=
  (j < i)%nat ∧
  (∃ s, tokens !! j = Some s ∧ is_continuation s = false) ∧
  ∀ k u, (j < k ≤ i)%nat → tokens !! k = Some u → is_continuation u = true.

(** Word index recorded for position [c] when the row at that position is
    classified as a typo (empty when it is not, or when a lookup fails). *)
Definition flagged_at (map_to_words : gmap string Z) (tokens : list string)
    (c : nat) (row : list score) : list Z :=
  match np_argmax row with
  | Ok prob =>
      if prob =? 1 then
        match tokens !! c with
        | Some token =>
            match map_to_words !! token with
            | Some w => [w]
            | None => []
            end
        | None => []
        end
      else []
  | Raise _ => []
  end.

(** Word indexes of the flagged positions [c, c+1, ...], in scan order and
    with repetitions. *)
Fixpoint flagged_indexes (map_to_words : gmap string Z) (tokens : list string)
    (c : nat) (rows : list (list score)) : list Z :=
  match rows with
  | [] => []
  | row :: rest =>
      flagged_at map_to_words tokens c row
      ++ flagged_indexes map_to_words tokens (S c) rest
  end.

(** Keep the first occurrence of every element, in order. *)
Fixpoint first_seen (l : list Z) : list Z :=
  match l with
  | [] => []
  | x :: l' => x :: filter (λ y, y ≠ x) (first_seen l')
  end.

(** Strictly increasing list of integers. *)
Definition increasing (l : list Z) : Prop :=
  ∀ i j a b, (i < j)%nat → l !! i = Some a → l !! j = Some b → a < b.

Ltac by_decide := apply (bool_decide_unpack _); vm_compute; exact I.

(** Appending an index unless it is already present. *)
Definition add_new (acc : list Z) (w : Z) : list Z :=
  if bool_decide (w ∈ acc) then acc else acc ++ [w].

Definition demo_tokens : list string := ["a"; "sm"; "##ple"; "test"; "hpw"].

Definition demo_result : list (list (list score)) :=
  [[row_sentinel; row_ok; row_typo; row_typo; row_ok; row_typo; row_sentinel]].

(** Concatenation of a list of strings, in order. *)
Definition str_join (l : list string) : string := foldr String.append "" l.

(** The sentence without its space characters. *)
Fixpoint remove_spaces (s : string) : string :=
  match s with
  | EmptyString => ""
  | String c s' =>
      if (c =? " ")%char then remove_spaces s' else String c (remove_spaces s')
  end.

(** The list [typos] computed in [show_typos]. *)
Definition typos_of (tokenize : string → list string)
    (infer : string → list (list (list score))) (sentence : string)
  : res (list string) :=
  typo_indexes ← typo_indexes_of tokenize infer sentence;
  comprehension (py_getitem (sentence_split sentence)) typo_indexes.

(** Index [i] is acceptable for Python's [words[i]]. *)
Definition in_range {A} (words : list A) (i : Z) : Prop :=
  - Z.of_nat (length words) ≤ i < Z.of_nat (length words).

(** Number of offsets of [s] at which [t] occurs literally (overlapping
    occurrences included). *)
Fixpoint count_occurrences (t s : string) : nat :=
  match s with
  | EmptyString => 0
  | String _ s' => (if String.prefix t s then 1 else 0) + count_occurrences t s'
  end.

(** The annotated string holds at least one marked copy of [t] per literal
    occurrence of [t] in the sentence. *)
Definition wraps_every_occurrence (t sentence detected : string) : Prop :=
  (count_occurrences t sentence ≤ count_occurrences (mark t) detected)%nat.

(** No occurrence of [t] begins inside [u] when [u] is followed by [t]. *)
Fixpoint free_of (t u : string) : bool :=
  match u with
  | EmptyString => true
  | String _ u' => negb (String.prefix t (u +:+ t)) && free_of t u'
  end.

(** [us[0] sep us[1] sep ... sep v]: every element of [us] followed by [sep],
    then [v]. *)
Definition interleave (sep : string) (us : list string) (v : string) : string :=
  foldr (λ u acc, u +:+ sep +:+ acc) v us.

#[global] Instance in_range_dec {A} (words : list A) i :
  Decision (in_range words i).
Proof. unfold in_range. apply _. Defined.

(** Scores [x; y] for which [np.argmax] answers 1: [x] is a number and [y]
    is NaN or a strictly greater number. *)
Definition flagged_pair (x y : score) : Prop :=
  match x, y with
  | Num a, Num b => (a < b)%Q
  | Num _, NaN => True
  | NaN, _ => False
  end.

(** Character [c] occurs in [s]. *)
Fixpoint str_mem (c : ascii) (s : string) : bool :=
  match s with
  | EmptyString => false
  | String d s' => (c =? d)%char || str_mem c s'
  end.

(** Replacing [t'] cannot touch a marker [<i>t</i>]: [t'] holds neither [<]
    nor [>] and occurs neither in [/i] (hence not in [i]) nor in [t]. *)
Definition keeps_marker (t t' : string) : bool :=
  negb (str_mem "<" t') && negb (str_mem ">" t')
  && (count_occurrences t' "/i" =? 0)%nat
  && (count_occurrences t' t =? 0)%nat.

(** Some character of [s] belongs to the splitting class. *)
Fixpoint has_delim (s : string) : bool :=
  match s with
  | EmptyString => false
  | String c s' => is_delim c || has_delim s'
  end.

(** [t] occurs literally in [s]. *)
Definition occurs_in (t s : string) : Prop :=
  ∃ pre post, s = pre +:+ t +:+ post.

(** * Worked examples *)

Example token_to_words_demo :
  let m := token_to_words ["st"; "##gr"; "##uggled"; "with"] in
  (m !! "st", m !! "##gr", m !! "##uggled", m !! "with")
  = (Some 0, Some 0, Some 0, Some 1).
Proof. vm_compute. reflexivity. Qed.

Example get_typo_indexes_demo :
  let tokens := ["a"; "sm"; "##ple"; "test"] in
  get_typo_indexes
    [[row_sentinel; row_ok; row_typo; row_typo; row_ok; row_sentinel]]
    (token_to_words tokens) tokens = Ok [1].
Proof. vm_compute. reflexivity. Qed.

Example sentence_split_demo :
  sentence_split "I'm here, ok." = ["I"; "'"; "m"; "here"; ","; "ok"; "."].
Proof. vm_compute. reflexivity. Qed.

Example str_replace_demo :
  (str_replace "abc" "" "-", str_replace "aaa" "aa" "b", str_replace "" "" "x")
  = ("-a-b-c-", "ba", "x").
Proof. vm_compute. reflexivity. Qed.

Example re_split_demo :
  re_split "I'm here, ok."
  = ["I"; "'"; "m"; " "; "here"; ","; ""; " "; "ok"; "."; ""].
Proof. vm_compute. reflexivity. Qed.

Example py_slice_demo :
  (Optimum.py_slice "abcdef" 2 4, Optimum.py_slice "abc" 2 10,
   Optimum.py_slice "abc" (-2) (-1), Optimum.py_slice "abc" 2 1)
  = ("cd", "c", "b", "").
Proof. vm_compute. reflexivity. Qed.

Example optimum_demo :
  Optimum.show_typos
    (λ _, [{| Optimum.start := 10; Optimum.end_ := 15 |}])
    "This is a smple test."
  = Optimum.printed "This is a smple test." "This is a <i>smple</i> test.".
Proof. vm_compute. reflexivity. Qed.

Example scenario1 :
  show_typos (stub_tokenize ["this"; "is"; "a"; "sm"; "##ple"; "test"; "."])
             (stub_infer 7 [3%nat; 4%nat]) "This is a smple test."
  = Ok (printed "This is a smple test." "This is a <i>smple</i> test.").
Proof. vm_compute. reflexivity. Qed.

(** * Properties of the token-to-word mapper *)

Lemma token_loop_cons st t ts :
  token_loop st (t :: ts) = token_loop (token_step st t) ts.
Proof. reflexivity. Qed.

Lemma token_step_lookup wc (m : gmap string Z) t :
  snd (token_step (wc, m) t) !! t
  = Some (wc + (if is_continuation t then 0 else 1)).
Proof.
  unfold token_step. destruct (is_continuation t); simpl;
    rewrite lookup_insert_eq; f_equal; lia.
Qed.

Lemma token_step_count wc (m : gmap string Z) t :
  fst (token_step (wc, m) t) = wc + (if is_continuation t then 0 else 1).
Proof. unfold token_step. destruct (is_continuation t); simpl; lia. Qed.

Lemma token_step_lookup_ne wc (m : gmap string Z) t u :
  t ≠ u → snd (token_step (wc, m) t) !! u = m !! u.
Proof.
  intros Hne. unfold token_step.
  destruct (is_continuation t); simpl; by rewrite lookup_insert_ne.
Qed.

(** Tokens that do not occur in the scanned list keep their entry. *)
Lemma token_loop_notin ts : ∀ wc (m : gmap string Z) t,
  t ∉ ts → snd (token_loop (wc, m) ts) !! t = m !! t.
Proof.
  induction ts as [|a ts IH]; intros wc m t Hnot; [done|].
  apply not_elem_of_cons in Hnot as [Hne Hnot].
  rewrite token_loop_cons.
  destruct (token_step (wc, m) a) as [wc' m'] eqn:Hstep.
  rewrite IH by done.
  replace m' with (snd (token_step (wc, m) a)) by (by rewrite Hstep).
  by apply token_step_lookup_ne.
Qed.

(** When the token string at position [i] does not occur again later, its
    entry is the counter value reached after scanning positions [0..i]. *)
Lemma token_loop_lookup ts : ∀ wc (m : gmap string Z) i t,
  ts !! i = Some t → t ∉ drop (S i) ts →
  snd (token_loop (wc, m) ts) !! t = Some (wc + count_words (take (S i) ts)).
Proof.
  induction ts as [|a ts IH]; intros wc m i t Hi Hlater; [done|].
  rewrite token_loop_cons.
  pose proof (token_step_lookup wc m a) as Hl.
  pose proof (token_step_count wc m a) as Hc.
  destruct (token_step (wc, m) a) as [wc' m'] eqn:Hstep. simpl in Hl, Hc.
  destruct i as [|i]; simpl in Hi.
  - injection Hi as <-. rewrite token_loop_notin by done.
    rewrite Hl. simpl. f_equal; lia.
  - rewrite (IH wc' m' i t Hi Hlater). subst wc'.
    change (take (S (S i)) (a :: ts)) with (a :: take (S i) ts).
    simpl count_words. f_equal; lia.
Qed.

Lemma token_to_words_lookup ts i t :
  ts !! i = Some t → t ∉ drop (S i) ts →
  token_to_words ts !! t = Some (count_words (take (S i) ts) - 1).
Proof.
  intros Hi Hlater. unfold token_to_words.
  rewrite (token_loop_lookup ts (-1) ∅ i t Hi Hlater). f_equal; lia.
Qed.

(** Pairwise distinct token strings never occur again later. *)
Lemma NoDup_not_later (ts : list string) i t :
  NoDup ts → ts !! i = Some t → t ∉ drop (S i) ts.
Proof.
  intros Hnd Hi Hin. apply list_elem_of_lookup in Hin as [j Hj].
  rewrite lookup_drop in Hj.
  pose proof (NoDup_lookup ts i (S i + j) t Hnd Hi Hj). lia.
Qed.

Lemma count_words_app l1 l2 :
  count_words (l1 ++ l2) = count_words l1 + count_words l2.
Proof. induction l1 as [|a l1 IH]; simpl; [done|]. rewrite IH. lia. Qed.

Lemma count_words_none l :
  (∀ u, u ∈ l → is_continuation u = true) → count_words l = 0.
Proof.
  induction l as [|a l IH]; intros H; simpl; [done|].
  rewrite (H a) by left. rewrite IH; [done|]. intros u Hu. apply H. by right.
Qed.

Lemma count_words_all l :
  (∀ u, u ∈ l → is_continuation u = false) →
  count_words l = Z.of_nat (length l).
Proof.
  induction l as [|a l IH]; intros H; simpl length; simpl count_words; [done|].
  rewrite (H a) by left. rewrite IH; [lia|]. intros u Hu. apply H. by right.
Qed.

Lemma count_words_range ts : 0 ≤ count_words ts ≤ Z.of_nat (length ts).
Proof.
  induction ts as [|a ts IH]; simpl length; simpl count_words; [lia|].
  destruct (is_continuation a); lia.
Qed.

Lemma count_words_take_S ts n u :
  ts !! n = Some u →
  count_words (take (S n) ts)
  = count_words (take n ts) + (if is_continuation u then 0 else 1).
Proof.
  intros Hn. rewrite (take_S_r ts n u Hn), count_words_app. simpl. lia.
Qed.

Lemma count_words_take_mono ts n k :
  (n ≤ k)%nat → count_words (take n ts) ≤ count_words (take k ts).
Proof.
  induction 1 as [|k Hle IH]; [lia|].
  destruct (ts !! k) as [u|] eqn:Hk.
  - rewrite (count_words_take_S ts k u Hk). destruct (is_continuation u); lia.
  - apply lookup_ge_None in Hk.
    rewrite (take_ge ts (S k)) by lia. rewrite (take_ge ts k) in IH by lia. lia.
Qed.

(** Scanning a run of continuation tokens leaves the counter unchanged. *)
Lemma count_words_take_run ts j d :
  (∀ k u, (j < k ≤ j + d)%nat → ts !! k = Some u → is_continuation u = true) →
  count_words (take (S (j + d)) ts) = count_words (take (S j) ts).
Proof.
  induction d as [|d IH]; intros Hrun.
  - by rewrite Nat.add_0_r.
  - rewrite <- IH by (intros k u Hk; apply Hrun; lia).
    replace (j + S d)%nat with (S (j + d)) by lia.
    destruct (ts !! S (j + d)) as [u|] eqn:Hk.
    + rewrite (count_words_take_S ts _ u Hk).
      rewrite (Hrun (S (j + d)) u) by (done || lia). lia.
    + apply lookup_ge_None in Hk.
      rewrite (take_ge ts (S (S (j + d)))) by lia.
      by rewrite (take_ge ts (S (j + d))) by lia.
Qed.

(** C2, as stated, fails: a leading continuation token is recorded at the
    initial counter value -1, not at 0. *)
Lemma first_continuation_not_zero :
  is_continuation "##ing" = true ∧
  token_to_words ["##ing"; "word"] !! "##ing" = Some (-1) ∧
  token_to_words ["##ing"; "word"] !! "##ing" ≠ Some 0.
Proof. vm_compute. repeat split; congruence. Qed.

(** C2 (amended): when the first token carries the continuation marker and its
    string does not occur again later in the sequence, [token_to_words] maps
    it to -1, the initial value of the counter; no special case is applied. *)
Theorem first_continuation_minus_one (t : string) (rest : list string) :
  is_continuation t = true → t ∉ rest →
  token_to_words (t :: rest) !! t = Some (-1).
Proof.
  intros Hc Hnot. unfold token_to_words. rewrite token_loop_cons.
  pose proof (token_step_lookup (-1) ∅ t) as Hl.
  destruct (token_step (-1, ∅) t) as [wc m]. simpl in Hl.
  rewrite token_loop_notin by done. rewrite Hl, Hc. f_equal.
Qed.

Lemma first_continuation_minus_one_witness :
  token_to_words ["##ing"; "word"] !! "##ing" = Some (-1).
Proof.
  apply (first_continuation_minus_one "##ing" ["word"]);
    [reflexivity | by_decide].
Defined.

(** C3, as stated, fails: with a repeated token string the first occurrence
    is looked up at the index of the last one. *)
Lemma repeated_token_index :
  (∀ u, u ∈ ["the"; "cat"; "the"] → is_continuation u = false) ∧
  ["the"; "cat"; "the"] !! 0%nat = Some "the" ∧
  token_to_words ["the"; "cat"; "the"] !! "the" = Some 2 ∧
  token_to_words ["the"; "cat"; "the"] !! "the" ≠ Some (Z.of_nat 0).
Proof.
  split; [|vm_compute; repeat split; congruence].
  intros u Hu. repeat (apply elem_of_cons in Hu as [->|Hu]; [reflexivity|]).
  by apply elem_of_nil in Hu.
Qed.

(** C3 (amended): in a token sequence of length k with no continuation token,
    the token at position i (0 <= i < k) is mapped to word index i provided
    its string does not occur again later in the sequence; so pairwise
    distinct tokens get the indexes 0..k-1 in input order. *)
Theorem no_continuation_indexes (tokens : list string) (i : nat) (t : string) :
  (∀ u, u ∈ tokens → is_continuation u = false) →
  tokens !! i = Some t →
  t ∉ drop (S i) tokens →
  token_to_words tokens !! t = Some (Z.of_nat i).
Proof.
  intros Hall Hi Hlater. rewrite (token_to_words_lookup tokens i t Hi Hlater).
  rewrite count_words_all.
  - rewrite length_take_le; [f_equal; lia|].
    apply lookup_lt_Some in Hi. lia.
  - intros u Hu. apply Hall. by apply (subseteq_take (S i) tokens).
Qed.

Lemma no_continuation_indexes_witness :
  token_to_words ["the"; "cat"; "sat"; "the"] !! "sat" = Some (Z.of_nat 2).
Proof.
  apply (no_continuation_indexes ["the"; "cat"; "sat"; "the"] 2 "sat").
  - intros u Hu. repeat (apply elem_of_cons in Hu as [->|Hu]; [reflexivity|]).
    by apply elem_of_nil in Hu.
  - reflexivity.
  - by_decide.
Defined.

(** C4, as stated, fails: when a continuation string recurs in a later word,
    its entry is overwritten with the later word's index. *)
Lemma repeated_continuation_index :
  let tokens := ["mis"; "##ing"; "go"; "##ing"] in
  tokens !! 1%nat = Some "##ing" ∧ is_continuation "##ing" = true ∧
  nearest_word_start tokens 0 1 ∧ tokens !! 0%nat = Some "mis" ∧
  token_to_words tokens !! "##ing" = Some 1 ∧
  token_to_words tokens !! "mis" = Some 0 ∧
  token_to_words tokens !! "##ing" ≠ token_to_words tokens !! "mis".
Proof.
  cbv zeta. split; [reflexivity|]. split; [reflexivity|]. split.
  - split; [lia|]. split; [by exists "mis"|].
    intros k u Hk Hu. assert (k = 1%nat) as -> by lia.
    by injection Hu as <-.
  - vm_compute. repeat split; congruence.
Qed.

(** C4 (amended): a continuation token is mapped to the same word index as
    the nearest preceding non-continuation token, provided neither of the two
    token strings occurs again later in the sequence (as is the case when the
    token strings are pairwise distinct). *)
Theorem continuation_same_index (tokens : list string) (i j : nat)
    (t s : string) :
  tokens !! i = Some t → is_continuation t = true →
  nearest_word_start tokens j i → tokens !! j = Some s →
  t ∉ drop (S i) tokens → s ∉ drop (S j) tokens →
  ∃ w, token_to_words tokens !! t = Some w ∧
       token_to_words tokens !! s = Some w.
Proof.
  intros Hi Hc (Hlt & _ & Hrun) Hj Hlt_t Hlt_s.
  exists (count_words (take (S j) tokens) - 1). split.
  - rewrite (token_to_words_lookup tokens i t Hi Hlt_t).
    replace i with (j + (i - j))%nat by lia.
    rewrite count_words_take_run; [done|].
    intros k u Hk. apply Hrun. lia.
  - apply (token_to_words_lookup tokens j s Hj Hlt_s).
Qed.

Lemma continuation_same_index_witness :
  ∃ w, token_to_words ["st"; "##gr"; "##uggled"; "with"] !! "##uggled" = Some w
     ∧ token_to_words ["st"; "##gr"; "##uggled"; "with"] !! "st" = Some w.
Proof.
  apply (continuation_same_index ["st"; "##gr"; "##uggled"; "with"] 2 0).
  - reflexivity.
  - reflexivity.
  - split; [lia|]. split; [by exists "st"|].
    intros k u Hk Hu. destruct k as [|[|[|k]]]; try lia.
    + by injection Hu as <-.
    + by injection Hu as <-.
  - reflexivity.
  - by_decide.
  - by_decide.
Defined.

(** * Properties of the typo index extractor *)

Lemma bind_Ok_inv {A B} (m : res A) (k : A → res B) b :
  m ≫= k = Ok b → ∃ a, m = Ok a ∧ k a = Ok b.
Proof. destruct m as [a|e]; [by exists a | done]. Qed.

Lemma np_argmax_cons (x : score) (xs : list score) :
  ∃ p, np_argmax (x :: xs) = Ok p.
Proof. simpl. destruct (is_nan x); by eexists. Qed.

Lemma py_getitem_nat {A} (xs : list A) (c : nat) :
  py_getitem xs (Z.of_nat c)
  = match xs !! c with Some x => Ok x | None => Raise IndexError end.
Proof.
  assert ((Z.of_nat c <? 0) = false) as E by (apply Z.ltb_ge; lia).
  unfold py_getitem. cbv zeta. rewrite !E. simpl. rewrite Nat2Z.id.
  destruct (Z.of_nat (length xs) <=? Z.of_nat c) eqn:Hle; [|done].
  apply Z.leb_le in Hle. rewrite (proj2 (lookup_ge_None xs c)); [done|lia].
Qed.

Lemma typo_step_spec m tokens wrong c row st :
  typo_step m tokens (wrong, Z.of_nat c) row = Ok st →
  st = (fold_left add_new (flagged_at m tokens c row) wrong, Z.of_nat (S c)).
Proof.
  unfold typo_step, flagged_at. intros H.
  apply bind_Ok_inv in H as (prob & -> & H).
  replace (Z.of_nat (S c)) with (Z.of_nat c + 1) by lia.
  destruct (prob =? 1); [|by injection H as <-].
  apply bind_Ok_inv in H as (token & Ht & H).
  rewrite py_getitem_nat in Ht.
  destruct (tokens !! c) as [token'|]; [injection Ht as ->|done].
  apply bind_Ok_inv in H as (w & Hw & H). unfold py_dictitem in Hw.
  destruct (m !! token) as [w'|]; [injection Hw as ->|done].
  simpl. unfold add_new. by destruct (bool_decide (w ∈ wrong)); injection H as <-.
Qed.

Lemma typo_loop_spec m tokens rows : ∀ wrong c st,
  typo_loop m tokens (wrong, Z.of_nat c) rows = Ok st →
  fst st = fold_left add_new (flagged_indexes m tokens c rows) wrong.
Proof.
  induction rows as [|row rows IH]; intros wrong c st H; simpl in H.
  - by injection H as <-.
  - apply bind_Ok_inv in H as (st' & Hstep & H).
    apply typo_step_spec in Hstep as ->.
    apply IH in H. simpl. by rewrite fold_left_app.
Qed.

Lemma add_new_first_seen l : ∀ acc,
  fold_left add_new l acc = acc ++ filter (λ y, y ∉ acc) (first_seen l).
Proof.
  induction l as [|x l IH]; intros acc; simpl.
  - by rewrite app_nil_r.
  - rewrite IH. unfold add_new. case_bool_decide as Hx.
    + rewrite filter_cons_False by (by intros ?). f_equal.
      rewrite list_filter_filter. apply list_filter_iff.
      intros y. split; [|tauto]. intros Hy. split; [done|]. by intros ->.
    + rewrite filter_cons_True by done.
      rewrite <- app_assoc. simpl. do 2 f_equal.
      rewrite list_filter_filter. apply list_filter_iff.
      intros y. rewrite not_elem_of_app, list_elem_of_singleton. tauto.
Qed.

Lemma elem_of_first_seen l x : x ∈ first_seen l ↔ x ∈ l.
Proof.
  induction l as [|a l IH]; simpl; [done|].
  rewrite !elem_of_cons, list_elem_of_filter, IH.
  destruct (decide (x = a)); tauto.
Qed.

Lemma NoDup_first_seen l : NoDup (first_seen l).
Proof.
  induction l as [|a l IH]; simpl; [constructor|].
  apply NoDup_cons. split; [|by apply NoDup_filter].
  rewrite list_elem_of_filter. tauto.
Qed.

Lemma get_typo_indexes_spec result m tokens l :
  get_typo_indexes result m tokens = Ok l →
  ∃ result0, result !! 0%nat = Some result0 ∧
    l = first_seen (flagged_indexes m tokens 0 (slice_1_m1 result0)).
Proof.
  unfold get_typo_indexes. intros H.
  apply bind_Ok_inv in H as (result0 & H0 & H).
  change 0 with (Z.of_nat 0) in H0. rewrite py_getitem_nat in H0.
  destruct (result !! 0%nat) as [r|]; [injection H0 as ->|done].
  apply bind_Ok_inv in H as (st & Hloop & H). injection H as <-.
  exists result0. split; [done|].
  rewrite (typo_loop_spec m tokens _ [] 0%nat st Hloop).
  rewrite add_new_first_seen. simpl.
  induction (first_seen _) as [|a l' IH]; [done|].
  rewrite filter_cons_True by apply not_elem_of_nil. by rewrite IH.
Qed.

(** Every scanned token has an entry in the map. *)
Lemma token_loop_in ts : ∀ wc (m : gmap string Z) t,
  t ∈ ts → is_Some (snd (token_loop (wc, m) ts) !! t).
Proof.
  induction ts as [|a ts IH]; intros wc m t Hin; [by apply elem_of_nil in Hin|].
  rewrite token_loop_cons.
  pose proof (token_step_lookup wc m a) as Hl.
  destruct (token_step (wc, m) a) as [wc' m'].
  destruct (decide (t ∈ ts)) as [Ht|Ht]; [by apply IH|].
  apply elem_of_cons in Hin as [->|Hin]; [|done].
  rewrite token_loop_notin by done. simpl in Hl. by rewrite Hl.
Qed.

Lemma token_to_words_in tokens t :
  t ∈ tokens → is_Some (token_to_words tokens !! t).
Proof. apply token_loop_in. Qed.

Lemma typo_loop_returns m tokens rows : ∀ wrong c,
  (c + length rows ≤ length tokens)%nat →
  Forall (λ row, row ≠ []) rows →
  (∀ t, t ∈ tokens → is_Some (m !! t)) →
  ∃ st, typo_loop m tokens (wrong, Z.of_nat c) rows = Ok st.
Proof.
  induction rows as [|row rows IH]; intros wrong c Hlen Hrows Hm.
  - by eexists.
  - apply Forall_cons in Hrows as [Hrow Hrows]. simpl in Hlen.
    change (∃ st, typo_step m tokens (wrong, Z.of_nat c) row
                  ≫= (λ st', typo_loop m tokens st' rows) = Ok st).
    assert (∃ wrong', typo_step m tokens (wrong, Z.of_nat c) row
                      = Ok (wrong', Z.of_nat (S c))) as [wrong' ->].
    { unfold typo_step. replace (Z.of_nat (S c)) with (Z.of_nat c + 1) by lia.
      destruct row as [|x xs]; [done|].
      destruct (np_argmax_cons x xs) as [p ->]. simpl.
      destruct (p =? 1); [|by eexists].
      rewrite py_getitem_nat.
      destruct (lookup_lt_is_Some_2 tokens c) as [token Ht]; [lia|].
      rewrite Ht. simpl. unfold py_dictitem.
      destruct (Hm token) as [w ->]; [by eapply list_elem_of_lookup_2|].
      simpl. destruct (bool_decide (w ∈ wrong)); by eexists. }
    simpl. apply IH; [lia|done|done].
Qed.

(** The extractor returns normally when the result has a batch entry whose
    trimmed rows are non-empty and no more numerous than the tokens, and every
    token has a map entry. *)
Lemma get_typo_indexes_returns result result0 m tokens :
  result !! 0%nat = Some result0 →
  (length (slice_1_m1 result0) ≤ length tokens)%nat →
  Forall (λ row, row ≠ []) (slice_1_m1 result0) →
  (∀ t, t ∈ tokens → is_Some (m !! t)) →
  ∃ l, get_typo_indexes result m tokens = Ok l.
Proof.
  intros H0 Hlen Hrows Hm. unfold get_typo_indexes.
  change 0 with (Z.of_nat 0). rewrite py_getitem_nat, H0. simpl.
  destruct (typo_loop_returns m tokens (slice_1_m1 result0) [] 0%nat)
    as [st Hst]; [lia|done|done|].
  simpl in Hst. rewrite Hst. by eexists.
Qed.

(** In [show_typos] the map is built from the tokens themselves, so the
    extraction returns as soon as the classifier yields at most one non-empty
    row per token between the two sentinel rows. *)
Lemma typo_indexes_of_returns tokenize infer sentence result0 :
  infer sentence !! 0%nat = Some result0 →
  (length (slice_1_m1 result0) ≤ length (tokenize sentence))%nat →
  Forall (λ row, row ≠ []) (slice_1_m1 result0) →
  ∃ l, typo_indexes_of tokenize infer sentence = Ok l.
Proof.
  intros H0 Hlen Hrows. unfold typo_indexes_of.
  eapply get_typo_indexes_returns; [done..|]. apply token_to_words_in.
Qed.

Lemma StronglySorted_filter {A} (R : relation A) (P : A → Prop)
    `{!∀ x, Decision (P x)} (l : list A) :
  StronglySorted R l → StronglySorted R (filter P l).
Proof.
  induction 1 as [|x l Hs IH Hall]; [constructor|].
  rewrite filter_cons. case_decide; [|done].
  constructor; [done|]. rewrite Forall_forall in *.
  intros y Hy. apply Hall. by apply list_elem_of_filter in Hy as [_ ?].
Qed.

Lemma first_seen_increasing l :
  StronglySorted Z.le l → StronglySorted Z.lt (first_seen l).
Proof.
  induction 1 as [|x l Hs IH Hall]; simpl; [constructor|].
  constructor; [by apply StronglySorted_filter|].
  rewrite Forall_forall in *. intros y Hy.
  apply list_elem_of_filter in Hy as [Hne Hy].
  apply elem_of_first_seen, Hall in Hy. lia.
Qed.

Lemma StronglySorted_increasing l : StronglySorted Z.lt l → increasing l.
Proof.
  induction 1 as [|x l Hs IH Hall]; intros i j a b Hij Hi Hj; [done|].
  destruct j as [|j]; [lia|]. simpl in Hj. destruct i as [|i]; simpl in Hi.
  - injection Hi as <-. rewrite Forall_forall in Hall.
    apply Hall. by eapply list_elem_of_lookup_2.
  - apply (IH i j); [lia|done|done].
Qed.

(** With pairwise distinct tokens the flagged word indexes never decrease
    along the scan. *)
Lemma flagged_indexes_sorted tokens rows : ∀ c,
  NoDup tokens →
  StronglySorted Z.le (flagged_indexes (token_to_words tokens) tokens c rows)
  ∧ Forall (λ w, count_words (take (S c) tokens) - 1 ≤ w)
           (flagged_indexes (token_to_words tokens) tokens c rows).
Proof.
  induction rows as [|row rows IH]; intros c Hnd; simpl.
  - split; constructor.
  - destruct (IH (S c) Hnd) as [Hs Hall].
    assert (Forall (λ w, count_words (take (S c) tokens) - 1 ≤ w)
              (flagged_indexes (token_to_words tokens) tokens (S c) rows))
      as Hall'.
    { eapply Forall_impl; [exact Hall|]. intros w Hw. simpl in Hw.
      pose proof (count_words_take_mono tokens (S c) (S (S c))). lia. }
    unfold flagged_at. destruct (np_argmax row) as [prob|]; [|done].
    destruct (prob =? 1); [|done].
    destruct (tokens !! c) as [token|] eqn:Hc; [|done].
    rewrite (token_to_words_lookup tokens c token Hc)
      by (by apply NoDup_not_later).
    simpl.
    split; constructor; done || lia.
Qed.

(** C5: whatever the classification result, the word map and the token
    sequence, a list returned by [get_typo_indexes] has no duplicates and is
    the list of flagged word indexes in their order of first discovery. *)
Theorem typo_indexes_first_seen (result : list (list (list score)))
    (map_to_words : gmap string Z) (tokens : list string) (l : list Z) :
  get_typo_indexes result map_to_words tokens = Ok l →
  NoDup l ∧
  ∃ result0, result !! 0%nat = Some result0 ∧
    l = first_seen (flagged_indexes map_to_words tokens 0 (slice_1_m1 result0)).
Proof.
  intros H. apply get_typo_indexes_spec in H as (result0 & H0 & ->).
  split; [apply NoDup_first_seen|]. by exists result0.
Qed.

Lemma typo_indexes_first_seen_witness :
  NoDup [1; 3] ∧
  ∃ result0, demo_result !! 0%nat = Some result0 ∧
    [1; 3] = first_seen (flagged_indexes (token_to_words demo_tokens)
                           demo_tokens 0 (slice_1_m1 result0)).
Proof.
  apply (typo_indexes_first_seen demo_result (token_to_words demo_tokens)
           demo_tokens [1; 3]).
  vm_compute. reflexivity.
Defined.

(** C8: when the two class scores of a position are equal (two equal numbers:
    NaN is equal to nothing), [np.argmax] selects index 0 (label "correct")
    and the loop body leaves [wrong_words] unchanged, whatever the tokens, the
    map and the position counter. *)
Theorem tie_selects_correct (a b : Q) (map_to_words : gmap string Z)
    (tokens : list string) (wrong_words : list Z) (c : Z) :
  (a == b)%Q →
  np_argmax [Num a; Num b] = Ok 0 ∧
  typo_step map_to_words tokens (wrong_words, c) [Num a; Num b]
  = Ok (wrong_words, c + 1).
Proof.
  intros Heq.
  assert (np_argmax [Num a; Num b] = Ok 0) as Harg.
  { simpl. replace (Qle_bool b a) with true; [done|].
    symmetry. apply Qle_bool_iff. rewrite Heq. apply Qle_refl. }
  split; [done|]. unfold typo_step. by rewrite Harg.
Qed.

Lemma tie_selects_correct_witness :
  np_argmax [Num (1 # 2); Num (2 # 4)] = Ok 0 ∧
  typo_step (token_to_words demo_tokens) demo_tokens ([1], 4)
            [Num (1 # 2); Num (2 # 4)] = Ok ([1], 4 + 1).
Proof.
  apply (tie_selects_correct (1 # 2) (2 # 4)). reflexivity.
Defined.

(** C10: for pairwise distinct token strings and any classification result,
    a list returned by [get_typo_indexes] on the map built from those tokens
    is strictly increasing. *)
Theorem typo_indexes_increasing (result : list (list (list score)))
    (tokens : list string) (l : list Z) :
  NoDup tokens →
  get_typo_indexes result (token_to_words tokens) tokens = Ok l →
  increasing l.
Proof.
  intros Hnd H. apply get_typo_indexes_spec in H as (result0 & _ & ->).
  apply StronglySorted_increasing, first_seen_increasing.
  by apply flagged_indexes_sorted.
Qed.

Lemma typo_indexes_increasing_witness : increasing [1; 3].
Proof.
  apply (typo_indexes_increasing demo_result demo_tokens [1; 3]).
  - by_decide.
  - vm_compute. reflexivity.
Defined.

(** * Properties of the sentence splitter *)

Lemma append_nil_l (s : string) : "" +:+ s = s.
Proof. reflexivity. Qed.

Lemma append_cons (c : ascii) (s r : string) :
  String c s +:+ r = String c (s +:+ r).
Proof. reflexivity. Qed.

Lemma append_nil_r (s : string) : s +:+ "" = s.
Proof.
  induction s as [|c s IH]; [done|]. by rewrite append_cons, IH.
Qed.

Lemma append_assoc (a b c : string) : (a +:+ b) +:+ c = a +:+ b +:+ c.
Proof.
  induction a as [|x a IH]; [done|]. by rewrite !append_cons, IH.
Qed.

Lemma append_char_not_space (cur : string) (c : ascii) :
  c ≠ " "%char → cur +:+ String c "" ≠ " ".
Proof.
  intros Hc. destruct cur as [|d cur].
  - rewrite append_nil_l. intros [=]. done.
  - rewrite append_cons. intros [= _ H]. by destruct cur.
Qed.

Lemma is_delim_space c : is_delim c = false → (c =? " ")%char = false.
Proof.
  unfold is_delim. intros H. by repeat apply orb_false_elim in H as [H ?].
Qed.

Lemma re_split_from_join s : ∀ cur,
  str_join (re_split_from cur s) = cur +:+ s.
Proof.
  induction s as [|c s IH]; intros cur; simpl.
  - done.
  - destruct (is_delim c); simpl.
    + by rewrite IH.
    + by rewrite IH, append_assoc.
Qed.

Lemma str_join_filter_cons (cur : string) (l : list string) :
  cur ≠ " " →
  str_join (filter (λ x, x ≠ " " ∧ x ≠ "") (cur :: l))
  = cur +:+ str_join (filter (λ x, x ≠ " " ∧ x ≠ "") l).
Proof.
  intros Hcur. rewrite filter_cons. case_decide as Hk; [done|].
  destruct (decide (cur = "")) as [->|Hne]; [done|]. tauto.
Qed.

Lemma sentence_split_from_join s : ∀ cur,
  cur ≠ " " →
  str_join (filter (λ x, x ≠ " " ∧ x ≠ "") (re_split_from cur s))
  = cur +:+ remove_spaces s.
Proof.
  induction s as [|c s IH]; intros cur Hcur; simpl re_split_from.
  - rewrite str_join_filter_cons by done. done.
  - destruct (is_delim c) eqn:Hd.
    + rewrite str_join_filter_cons by done. f_equal. simpl remove_spaces.
      destruct (Ascii.eqb_spec c " ") as [->|Hc].
      * rewrite filter_cons_False by tauto. by rewrite IH.
      * rewrite str_join_filter_cons by (by intros [=]).
        by rewrite IH.
    + apply is_delim_space in Hd. simpl remove_spaces. rewrite Hd.
      rewrite IH, append_assoc; [done|].
      apply append_char_not_space. by apply Ascii.eqb_neq.
Qed.

(** C6: the elements returned by [sentence_split], concatenated in order,
    give the sentence with its space characters removed; the underlying
    split-with-capture itself loses nothing. *)
Theorem sentence_split_roundtrip (sentence : string) :
  str_join (sentence_split sentence) = remove_spaces sentence ∧
  str_join (re_split sentence) = sentence.
Proof.
  split.
  - unfold sentence_split, re_split.
    by rewrite sentence_split_from_join.
  - unfold re_split. by rewrite re_split_from_join.
Qed.

(** * Properties of the orchestrator *)

Lemma show_typos_typos tokenize infer sentence :
  show_typos tokenize infer sentence
  = typos_of tokenize infer sentence
    ≫= λ typos, Ok (printed sentence (annotate sentence typos)).
Proof.
  unfold show_typos, typos_of.
  by destruct (typo_indexes_of tokenize infer sentence).
Qed.

(** C7: when the extractor flags no typo index, the annotated string written
    by [show_typos] is the input sentence itself. *)
Theorem no_typo_identity (tokenize : string → list string)
    (infer : string → list (list (list score))) (sentence : string) :
  typo_indexes_of tokenize infer sentence = Ok [] →
  show_typos tokenize infer sentence = Ok (printed sentence sentence).
Proof. intros H. unfold show_typos. by rewrite H. Qed.

Lemma no_typo_identity_witness :
  show_typos (stub_tokenize ["this"; "is"; "fine"]) (stub_infer 3 [])
             "This is fine"
  = Ok (printed "This is fine" "This is fine").
Proof. apply no_typo_identity. vm_compute. reflexivity. Defined.

Lemma py_getitem_in_range {A} (xs : list A) i :
  in_range xs i → ∃ x, py_getitem xs i = Ok x.
Proof.
  unfold in_range, py_getitem. intros Hr. cbv zeta.
  set (j := if i <? 0 then i + Z.of_nat (length xs) else i).
  assert (0 ≤ j < Z.of_nat (length xs)) as Hj
    by (subst j; destruct (Z.ltb_spec i 0); lia).
  replace (j <? 0) with false by (symmetry; apply Z.ltb_ge; lia).
  replace (Z.of_nat (length xs) <=? j) with false
    by (symmetry; apply Z.leb_gt; lia).
  simpl. destruct (lookup_lt_is_Some_2 xs (Z.to_nat j)) as [x ->]; [lia|].
  by exists x.
Qed.

Lemma py_getitem_out_of_range {A} (xs : list A) i :
  ¬ in_range xs i → py_getitem xs i = Raise IndexError.
Proof.
  unfold in_range, py_getitem. intros Hr. cbv zeta.
  set (j := if i <? 0 then i + Z.of_nat (length xs) else i).
  assert (j < 0 ∨ Z.of_nat (length xs) ≤ j) as Hj
    by (subst j; destruct (Z.ltb_spec i 0); lia).
  destruct (Z.ltb_spec j 0); [done|].
  destruct (Z.leb_spec (Z.of_nat (length xs)) j); [done|lia].
Qed.

Lemma py_getitem_last {A} (xs : list A) w :
  last xs = Some w → py_getitem xs (-1) = Ok w.
Proof.
  intros Hl. rewrite last_lookup in Hl.
  assert (length xs ≠ 0%nat) as Hne
    by (intros H0; apply lookup_lt_Some in Hl; lia).
  unfold py_getitem. cbv zeta. change (-1 <? 0) with true. cbv iota.
  replace (-1 + Z.of_nat (length xs) <? 0) with false
    by (symmetry; apply Z.ltb_ge; lia).
  replace (Z.of_nat (length xs) <=? -1 + Z.of_nat (length xs)) with false
    by (symmetry; apply Z.leb_gt; lia).
  simpl. replace (Z.to_nat (-1 + Z.of_nat (length xs))) with (pred (length xs))
    by lia.
  by rewrite Hl.
Qed.

Lemma comprehension_in_range {A} (xs : list A) idxs :
  Forall (in_range xs) idxs →
  ∃ ys, comprehension (py_getitem xs) idxs = Ok ys ∧ length ys = length idxs.
Proof.
  induction 1 as [|i idxs Hi _ (ys & IH & Hlen)]; simpl.
  - by exists [].
  - destruct (py_getitem_in_range xs i Hi) as [y ->]. rewrite IH. simpl.
    exists (y :: ys). split; [done|]. simpl. by rewrite Hlen.
Qed.

Lemma comprehension_out_of_range {A} (xs : list A) idxs :
  Exists (λ i, ¬ in_range xs i) idxs →
  comprehension (py_getitem xs) idxs = Raise IndexError.
Proof.
  induction idxs as [|i idxs IH]; intros Hex; [by apply Exists_nil in Hex|].
  simpl. destruct (decide (in_range xs i)) as [Hi|Hi].
  - destruct (py_getitem_in_range xs i Hi) as [y ->]. simpl.
    apply Exists_cons in Hex as [?|Hex]; [done|]. by rewrite IH.
  - by rewrite py_getitem_out_of_range.
Qed.

(** C9: the lookup [sentence_words[i]] is unguarded.  When every extracted
    index lies in [-len, len) all lookups succeed and [show_typos] writes its
    output; when some extracted index lies outside, [show_typos] raises
    [IndexError]; index -1 selects the last element of a non-empty word
    list. *)
Theorem unguarded_word_lookup (tokenize : string → list string)
    (infer : string → list (list (list score))) (sentence : string)
    (idxs : list Z) :
  typo_indexes_of tokenize infer sentence = Ok idxs →
  (Forall (in_range (sentence_split sentence)) idxs →
   ∃ typos,
     comprehension (py_getitem (sentence_split sentence)) idxs = Ok typos ∧
     length typos = length idxs ∧
     show_typos tokenize infer sentence
     = Ok (printed sentence (annotate sentence typos))) ∧
  (Exists (λ i, ¬ in_range (sentence_split sentence) i) idxs →
   show_typos tokenize infer sentence = Raise IndexError) ∧
  (∀ w, last (sentence_split sentence) = Some w →
        py_getitem (sentence_split sentence) (-1) = Ok w).
Proof.
  intros Hidx. unfold show_typos. rewrite Hidx. simpl. repeat split.
  - intros Hall.
    destruct (comprehension_in_range _ _ Hall) as (typos & Hc & Hlen).
    exists typos. by rewrite Hc.
  - intros Hex. by rewrite comprehension_out_of_range.
  - apply py_getitem_last.
Qed.

(** A leading continuation token yields index -1, which silently selects the
    last word; an index beyond the word list raises. *)
Lemma unguarded_word_lookup_witness :
  (typo_indexes_of (stub_tokenize ["##ab"; "cd"]) (stub_infer 2 [0%nat])
     "ab cd" = Ok [-1] ∧
   ∃ typos,
     comprehension (py_getitem (sentence_split "ab cd")) [-1] = Ok typos ∧
     length typos = 1%nat ∧
     show_typos (stub_tokenize ["##ab"; "cd"]) (stub_infer 2 [0%nat]) "ab cd"
     = Ok (printed "ab cd" (annotate "ab cd" typos))) ∧
  (typo_indexes_of (stub_tokenize ["e"; "-"; "mia"; "##l"])
     (stub_infer 4 [2%nat; 3%nat]) "e-mial" = Ok [2] ∧
   show_typos (stub_tokenize ["e"; "-"; "mia"; "##l"])
     (stub_infer 4 [2%nat; 3%nat]) "e-mial" = Raise IndexError).
Proof.
  split.
  - split; [vm_compute; reflexivity|].
    destruct (unguarded_word_lookup (stub_tokenize ["##ab"; "cd"])
                (stub_infer 2 [0%nat]) "ab cd" [-1]) as (Hin & _ & _).
    + vm_compute. reflexivity.
    + apply Hin. constructor; [by_decide|constructor].
  - split; [vm_compute; reflexivity|].
    destruct (unguarded_word_lookup (stub_tokenize ["e"; "-"; "mia"; "##l"])
                (stub_infer 4 [2%nat; 3%nat]) "e-mial" [2]) as (_ & Hout & _).
    + vm_compute. reflexivity.
    + apply Hout. constructor. by_decide.
Defined.

Example minus_one_selects_last_word :
  show_typos (stub_tokenize ["##ab"; "cd"]) (stub_infer 2 [0%nat]) "ab cd"
  = Ok (printed "ab cd" "ab <i>cd</i>").
Proof. vm_compute. reflexivity. Qed.

(** ** Global replacement *)

Lemma prefix_nil (s : string) : String.prefix "" s = true.
Proof. by destruct s. Qed.

Lemma prefix_app (t rest : string) : String.prefix t (t +:+ rest) = true.
Proof.
  induction t as [|c t IH]; [apply prefix_nil|].
  rewrite append_cons. simpl. by destruct (ascii_dec c c).
Qed.

(** Whether [t] is a prefix only depends on the first [length t] characters. *)
Lemma prefix_app_long (t : string) : ∀ a rest,
  (String.length t ≤ String.length a)%nat →
  String.prefix t (a +:+ rest) = String.prefix t a.
Proof.
  induction t as [|c t IH]; intros a rest Hlen.
  - by rewrite !prefix_nil.
  - destruct a as [|d a]; simpl in Hlen; [lia|].
    rewrite append_cons. simpl. destruct (ascii_dec c d); [|done].
    apply IH. lia.
Qed.

Lemma length_append (a b : string) :
  String.length (a +:+ b) = (String.length a + String.length b)%nat.
Proof.
  induction a as [|c a IH]; [done|]. rewrite append_cons. simpl. by rewrite IH.
Qed.

Lemma replace_scan_skip old new (a rest : string) :
  replace_scan old new (String.length a) (a +:+ rest)
  = replace_scan old new 0 rest.
Proof.
  induction a as [|c a IH]; [done|]. rewrite append_cons. simpl.
  exact IH.
Qed.

Lemma replace_scan_match old new rest :
  old ≠ "" →
  replace_scan old new 0 (old +:+ rest) = new +:+ replace_scan old new 0 rest.
Proof.
  intros Hne. destruct old as [|c old]; [done|].
  pose proof (prefix_app (String c old) rest) as Hp.
  rewrite append_cons in *. cbn [replace_scan]. rewrite Hp.
  replace (String.length (String c old) - 1)%nat with (String.length old)
    by (simpl; lia).
  by rewrite replace_scan_skip.
Qed.

Lemma replace_scan_free t new rest : ∀ u,
  t ≠ "" → free_of t u = true →
  replace_scan t new 0 (u +:+ t +:+ rest)
  = u +:+ new +:+ replace_scan t new 0 rest.
Proof.
  induction u as [|c u IH]; intros Hne Hfree.
  - rewrite !append_nil_l. by apply replace_scan_match.
  - cbn [free_of] in Hfree. apply andb_prop in Hfree as [Hp Hfree].
    apply negb_true_iff in Hp.
    assert (String.prefix t (String c u +:+ t +:+ rest) = false) as Hp'.
    { rewrite <- append_assoc, prefix_app_long; [done|].
      rewrite length_append. lia. }
    rewrite !append_cons in *. cbn [replace_scan]. rewrite Hp'.
    by rewrite IH.
Qed.

Lemma replace_scan_none t new : ∀ v,
  count_occurrences t v = 0%nat → replace_scan t new 0 v = v.
Proof.
  induction v as [|c v IH]; intros Hc; [done|].
  cbn [count_occurrences] in Hc. cbn [replace_scan].
  destruct (String.prefix t (String c v)); [done|].
  rewrite IH; [done|]. simpl in Hc. lia.
Qed.

Lemma replace_scan_interleave t new us v :
  t ≠ "" →
  Forall (λ u, free_of t u = true) us →
  count_occurrences t v = 0%nat →
  replace_scan t new 0 (interleave t us v) = interleave new us v.
Proof.
  intros Hne Hus Hv. induction Hus as [|u us Hu _ IH]; simpl.
  - by apply replace_scan_none.
  - by rewrite replace_scan_free, IH.
Qed.

Lemma py_getitem_elem_of {A} (xs : list A) i x :
  py_getitem xs i = Ok x → x ∈ xs.
Proof.
  unfold py_getitem. cbv zeta. destruct (_ || _); [done|].
  destruct (xs !! _) as [y|] eqn:Hy; [|done]. intros [= <-].
  by eapply list_elem_of_lookup_2.
Qed.

Lemma comprehension_elem_of {A} (xs : list A) idxs : ∀ ys,
  comprehension (py_getitem xs) idxs = Ok ys → ∀ y, y ∈ ys → y ∈ xs.
Proof.
  induction idxs as [|i idxs IH]; intros ys H y Hy; simpl in H.
  - injection H as <-. by apply elem_of_nil in Hy.
  - apply bind_Ok_inv in H as (x & Hx & H).
    apply bind_Ok_inv in H as (ys' & Hys & H). injection H as <-.
    apply elem_of_cons in Hy as [->|Hy].
    + by eapply py_getitem_elem_of.
    + by eapply IH.
Qed.

(** A typo handed to the replacement loop is never empty nor a single space. *)
Lemma typos_of_nonempty tokenize infer sentence typos t :
  typos_of tokenize infer sentence = Ok typos → t ∈ typos →
  t ≠ "" ∧ t ≠ " ".
Proof.
  unfold typos_of. intros H Ht.
  apply bind_Ok_inv in H as (idxs & _ & H).
  pose proof (comprehension_elem_of _ _ _ H t Ht) as Hin.
  unfold sentence_split in Hin. apply list_elem_of_filter in Hin. tauto.
Qed.

Lemma str_replace_interleave t new us v :
  t ≠ "" →
  Forall (λ u, free_of t u = true) us →
  count_occurrences t v = 0%nat →
  str_replace (interleave t us v) t new = interleave new us v.
Proof.
  intros Hne Hus Hv. unfold str_replace.
  destruct (decide (t = "")); [done|]. by apply replace_scan_interleave.
Qed.

(** The same holds for the pipeline-based variant when it reports a single,
    non-empty span. *)
Lemma optimum_single_span_marks_all nlp sentence r t us v :
  nlp sentence = [r] →
  Optimum.py_slice sentence (Optimum.start r) (Optimum.end_ r) = t →
  t ≠ "" →
  sentence = interleave t us v →
  Forall (λ u, free_of t u = true) us →
  count_occurrences t v = 0%nat →
  Optimum.show_typos nlp sentence
  = Optimum.printed sentence (interleave (mark t) us v).
Proof.
  intros Hnlp Ht Hne Hs Hus Hv. unfold Optimum.show_typos.
  rewrite Hnlp. simpl. rewrite Ht. unfold annotate. simpl.
  f_equal. f_equal. rewrite Hs at 1. by apply str_replace_interleave.
Qed.

(** C1, as stated, fails: a later replacement rewrites the markers written by
    an earlier one.  With "teh" flagged before "i", no occurrence of "teh"
    ends up between the markers. *)
Lemma later_typo_breaks_markers :
  let tokenize :=
    stub_tokenize ["teh"; "cat"; "and"; "teh"; "dog"; "i"; "saw"] in
  let infer := stub_infer 7 [0%nat; 5%nat] in
  let sentence := "teh cat and teh dog i saw" in
  let detected :=
    "<<i>i</i>>teh</<i>i</i>> cat and <<i>i</i>>teh</<i>i</i>> dog <i>i</i> saw"
  in
  typos_of tokenize infer sentence = Ok ["teh"; "i"] ∧
  count_occurrences "teh" sentence = 2%nat ∧
  show_typos tokenize infer sentence = Ok (printed sentence detected) ∧
  count_occurrences (mark "teh") detected = 0%nat ∧
  ¬ wraps_every_occurrence "teh" sentence detected.
Proof.
  cbv zeta. unfold wraps_every_occurrence.
  repeat split; try (vm_compute; reflexivity).
  vm_compute. intros H. inversion H.
Qed.

(** The scan does not revisit text it has consumed: of two overlapping
    occurrences only the first is marked. *)
Example overlapping_occurrence_unmarked :
  show_typos (stub_tokenize ["aaa"; "aa"]) (stub_infer 2 [1%nat]) "aaa aa"
  = Ok (printed "aaa aa" "<i>aa</i>a <i>aa</i>") ∧
  count_occurrences "aa" "aaa aa" = 3%nat ∧
  count_occurrences (mark "aa") "<i>aa</i>a <i>aa</i>" = 2%nat.
Proof. vm_compute. repeat split; reflexivity. Qed.

Lemma prefix_length (t : string) : ∀ s,
  String.prefix t s = true → (String.length t ≤ String.length s)%nat.
Proof.
  induction t as [|c t IH]; intros s Hp; simpl; [lia|].
  destruct s as [|d s]; [done|]. simpl in Hp.
  destruct (ascii_dec c d); [|done]. apply IH in Hp. simpl. lia.
Qed.

Lemma prefix_no_char old d rest :
  str_mem d old = false →
  ∀ x, String.prefix old (x +:+ String d rest) = String.prefix old x.
Proof.
  induction old as [|a old IH]; intros Hd x.
  - by rewrite !prefix_nil.
  - simpl in Hd. apply orb_false_elim in Hd as [Hda Hd].
    apply Ascii.eqb_neq in Hda. destruct x as [|b x].
    + rewrite append_nil_l. simpl. by destruct (ascii_dec a d) as [->|].
    + rewrite append_cons. simpl. destruct (ascii_dec a b); [|done].
      by apply IH.
Qed.

(** The scan treats the text on either side of a character that the replaced
    string does not contain independently. *)
Lemma replace_scan_char old new d rest :
  old ≠ "" → str_mem d old = false →
  ∀ u skip, (skip ≤ String.length u)%nat →
  replace_scan old new skip (u +:+ String d rest)
  = replace_scan old new skip u +:+ String d (replace_scan old new 0 rest).
Proof.
  intros Hne Hd. induction u as [|c u IH]; intros skip Hskip.
  - simpl in Hskip. assert (skip = 0%nat) as -> by lia.
    rewrite !append_nil_l. cbn [replace_scan].
    pose proof (prefix_no_char old d rest Hd "") as Hp.
    rewrite append_nil_l in Hp. rewrite Hp.
    destruct old; [done|]. reflexivity.
  - change (String.length (String c u)) with (S (String.length u)) in Hskip.
    rewrite append_cons. cbn [replace_scan]. destruct skip as [|k].
    + rewrite <- append_cons, (prefix_no_char old d rest Hd (String c u)).
      destruct (String.prefix old (String c u)) eqn:Hp.
      * apply prefix_length in Hp.
        change (String.length (String c u)) with (S (String.length u)) in Hp.
        rewrite IH by lia. by rewrite append_assoc.
      * rewrite IH by lia. by rewrite append_cons.
    + apply IH. lia.
Qed.

Lemma mark_shape (t rest : string) :
  mark t +:+ rest
  = String "<" ("i" +:+ String ">" (t +:+ String "<" ("/i" +:+ String ">" rest))).
Proof. unfold mark. by rewrite !append_assoc. Qed.

Lemma count_occurrences_tail t c s :
  count_occurrences t (String c s) = 0%nat → count_occurrences t s = 0%nat.
Proof. cbn [count_occurrences]. lia. Qed.

(** A replacement that keeps the marker acts on the text before and after it
    only. *)
Lemma replace_scan_mark t t' new u rest :
  t' ≠ "" → keeps_marker t t' = true →
  replace_scan t' new 0 (u +:+ mark t +:+ rest)
  = replace_scan t' new 0 u +:+ mark t +:+ replace_scan t' new 0 rest.
Proof.
  intros Hne Hk. unfold keeps_marker in Hk.
  apply andb_prop in Hk as [Hk Ht]. apply andb_prop in Hk as [Hk Hi].
  apply andb_prop in Hk as [Hlt Hgt].
  apply negb_true_iff in Hlt, Hgt. apply Nat.eqb_eq in Hi, Ht.
  pose proof (count_occurrences_tail _ _ _ Hi) as Hi'.
  rewrite !mark_shape.
  rewrite (replace_scan_char t' new "<" _ Hne Hlt u 0) by lia.
  rewrite (replace_scan_char t' new ">" _ Hne Hgt "i" 0) by (simpl; lia).
  rewrite (replace_scan_char t' new "<" _ Hne Hlt t 0) by lia.
  rewrite (replace_scan_char t' new ">" _ Hne Hgt "/i" 0) by (simpl; lia).
  by rewrite (replace_scan_none t' new "i" Hi'),
    (replace_scan_none t' new t Ht), (replace_scan_none t' new "/i" Hi).
Qed.

Lemma str_replace_interleave_mark t t' new us v :
  t' ≠ "" → keeps_marker t t' = true →
  str_replace (interleave (mark t) us v) t' new
  = interleave (mark t) (map (λ u, str_replace u t' new) us)
               (str_replace v t' new).
Proof.
  intros Hne Hk. unfold str_replace.
  destruct (decide (t' = "")) as [?|_]; [done|].
  induction us as [|u us IH]; simpl; [done|].
  by rewrite replace_scan_mark, IH.
Qed.

Lemma annotate_interleave_mark t later : ∀ us v,
  Forall (λ t', t' ≠ "" ∧ keeps_marker t t' = true) later →
  annotate (interleave (mark t) us v) later
  = interleave (mark t) (map (λ u, annotate u later) us) (annotate v later).
Proof.
  induction later as [|t' later IH]; intros us v Hall.
  - unfold annotate. simpl. by rewrite map_id.
  - apply Forall_cons in Hall as [[Hne Hk] Hall].
    change (annotate (interleave (mark t) us v) (t' :: later))
      with (annotate (str_replace (interleave (mark t) us v) t' (mark t'))
              later).
    rewrite str_replace_interleave_mark by done.
    rewrite IH by done. by rewrite map_map.
Qed.

(** C1 (amended): let [t] be a flagged typo substring such that the string
    produced by the replacements of the typos flagged before it reads
    [u0 t u1 t ... t v], where no occurrence of [t] begins inside any [ui] and
    [t] does not occur in [v], and such that every typo flagged after it keeps
    the marker (it holds neither [<] nor [>] and occurs neither in [/i] nor in
    [t]).  Then the annotated output is [u0' <i>t</i> u1' <i>t</i> ... v'],
    where [ui'] and [v'] are [ui] and [v] annotated with the later typos:
    each of these occurrences of [t] is wrapped, not only the flagged one. *)
Theorem flagged_typo_marks_all (tokenize : string → list string)
    (infer : string → list (list (list score))) (sentence t : string)
    (earlier later us : list string) (v : string) :
  typos_of tokenize infer sentence = Ok (earlier ++ t :: later) →
  annotate sentence earlier = interleave t us v →
  Forall (λ u, free_of t u = true) us →
  count_occurrences t v = 0%nat →
  Forall (λ t', keeps_marker t t' = true) later →
  show_typos tokenize infer sentence
  = Ok (printed sentence
          (interleave (mark t) (map (λ u, annotate u later) us)
                      (annotate v later))).
Proof.
  intros Htypos Hs Hus Hv Hlater.
  assert (∀ x, x ∈ earlier ++ t :: later → x ≠ "") as Hne
    by (intros x Hx; by eapply typos_of_nonempty).
  rewrite show_typos_typos, Htypos. simpl. do 3 f_equal.
  unfold annotate at 1. rewrite fold_left_app. fold (annotate sentence earlier).
  rewrite Hs. simpl.
  rewrite str_replace_interleave by (done || (apply Hne; set_solver)).
  apply annotate_interleave_mark.
  apply Forall_forall. intros t' Ht'. split.
  - apply Hne. set_solver.
  - by eapply (proj1 (Forall_forall _ _) Hlater).
Qed.

Lemma flagged_typo_marks_all_witness :
  show_typos
    (stub_tokenize ["hte"; "teh"; "cat"; "and"; "teh"; "dgo"])
    (stub_infer 6 [0%nat; 1%nat; 5%nat]) "hte teh cat and teh dgo"
  = Ok (printed "hte teh cat and teh dgo"
          (interleave (mark "teh")
             (map (λ u, annotate u ["dgo"]) ["<i>hte</i> "; " cat and "])
             (annotate " dgo" ["dgo"]))).
Proof.
  apply (flagged_typo_marks_all _ _ "hte teh cat and teh dgo" "teh"
           ["hte"] ["dgo"] ["<i>hte</i> "; " cat and "] " dgo").
  - vm_compute. reflexivity.
  - vm_compute. reflexivity.
  - repeat constructor.
  - reflexivity.
  - repeat constructor.
Defined.

Example scenario_three_typos :
  show_typos
    (stub_tokenize ["hte"; "teh"; "cat"; "and"; "teh"; "dgo"])
    (stub_infer 6 [0%nat; 1%nat; 5%nat]) "hte teh cat and teh dgo"
  = Ok (printed "hte teh cat and teh dgo"
          "<i>hte</i> <i>teh</i> cat and <i>teh</i> <i>dgo</i>").
Proof. vm_compute. reflexivity. Qed.

Example scenario2 :
  show_typos (stub_tokenize ["teh"; "cat"; "and"; "teh"; "dog"])
             (stub_infer 5 [0%nat]) "teh cat and teh dog"
  = Ok (printed "teh cat and teh dog" "<i>teh</i> cat and <i>teh</i> dog").
Proof. vm_compute. reflexivity. Qed.


(** * Further properties of the token-to-word mapper *)

Lemma last_occurrence (ts : list string) t :
  t ∈ ts → ∃ i, ts !! i = Some t ∧ t ∉ drop (S i) ts.
Proof.
  induction ts as [|a ts IH]; intros Hin; [by apply elem_of_nil in Hin|].
  destruct (decide (t ∈ ts)) as [Ht|Ht].
  - destruct (IH Ht) as (i & Hi & Hlater). by exists (S i).
  - apply elem_of_cons in Hin as [->|Hin]; [|done]. by exists 0%nat.
Qed.

Lemma count_words_take_le ts n : count_words (take n ts) ≤ count_words ts.
Proof.
  rewrite <- (take_ge ts (n `max` length ts)) at 2 by lia.
  apply count_words_take_mono. lia.
Qed.

(** X1: [token_to_words] maps a token string to the value the counter has
    after the last occurrence of that string: the number of non-continuation
    tokens up to and including that position, minus one. *)
Theorem token_to_words_last_occurrence (tokens : list string) (i : nat)
    (t : string) :
  tokens !! i = Some t → t ∉ drop (S i) tokens →
  token_to_words tokens !! t = Some (count_words (take (S i) tokens) - 1).
Proof. apply token_to_words_lookup. Qed.

Lemma token_to_words_last_occurrence_witness :
  token_to_words ["to"; "go"; "to"; "##wn"] !! "to" = Some (3 - 1).
Proof.
  apply (token_to_words_last_occurrence ["to"; "go"; "to"; "##wn"] 2 "to");
    [reflexivity | by_decide].
Defined.

Lemma token_to_words_Some_in (tokens : list string) t :
  is_Some (token_to_words tokens !! t) → t ∈ tokens.
Proof.
  intros Hs. destruct (decide (t ∈ tokens)) as [|Hnot]; [done|].
  unfold token_to_words in Hs. rewrite token_loop_notin in Hs by done.
  rewrite lookup_empty in Hs. by destruct Hs.
Qed.

(** X2: the keys of the map are exactly the token strings of the input. *)
Theorem token_to_words_keys (tokens : list string) (t : string) :
  is_Some (token_to_words tokens !! t) ↔ t ∈ tokens.
Proof. split; [apply token_to_words_Some_in | apply token_to_words_in]. Qed.

(** X3: every word index stored in the map lies between -1 and the number of
    non-continuation tokens minus one, hence below the number of tokens; the
    index of a non-continuation token is never negative. *)
Theorem token_to_words_bounds (tokens : list string) (t : string) (w : Z) :
  token_to_words tokens !! t = Some w →
  -1 ≤ w ≤ count_words tokens - 1 ∧
  w < Z.of_nat (length tokens) ∧
  (is_continuation t = false → 0 ≤ w).
Proof.
  intros Hw.
  assert (t ∈ tokens) as Hin by (apply token_to_words_Some_in; by eexists).
  destruct (last_occurrence tokens t Hin) as (i & Hi & Hlater).
  rewrite (token_to_words_lookup tokens i t Hi Hlater) in Hw.
  injection Hw as <-.
  pose proof (count_words_range (take (S i) tokens)) as [H0 _].
  pose proof (count_words_take_le tokens (S i)) as Hle.
  pose proof (count_words_range tokens) as [_ Hlen].
  repeat split; try lia.
  intros Hc. rewrite (count_words_take_S tokens i t Hi), Hc.
  pose proof (count_words_range (take i tokens)). lia.
Qed.

Lemma token_to_words_bounds_witness :
  -1 ≤ 1 ≤ count_words ["st"; "##gr"; "with"] - 1 ∧
  1 < Z.of_nat (length ["st"; "##gr"; "with"]) ∧
  (is_continuation "with" = false → 0 ≤ 1).
Proof.
  apply (token_to_words_bounds ["st"; "##gr"; "with"] "with" 1).
  vm_compute. reflexivity.
Defined.

(** X4: with pairwise distinct token strings, the word index of the token at
    position i+1 is that of the token at position i when it is a continuation
    token, and one more otherwise. *)
Theorem word_index_step (tokens : list string) (i : nat) (t u : string)
    (w : Z) :
  NoDup tokens →
  tokens !! i = Some t → tokens !! S i = Some u →
  token_to_words tokens !! t = Some w →
  token_to_words tokens !! u
  = Some (w + (if is_continuation u then 0 else 1)).
Proof.
  intros Hnd Hi Hu Hw.
  rewrite (token_to_words_lookup tokens i t Hi) in Hw
    by (by apply NoDup_not_later).
  injection Hw as <-.
  rewrite (token_to_words_lookup tokens (S i) u Hu)
    by (by apply NoDup_not_later).
  rewrite (count_words_take_S tokens (S i) u Hu). f_equal. lia.
Qed.

Lemma word_index_step_witness :
  token_to_words ["a"; "sm"; "##ple"; "test"] !! "##ple"
  = Some (1 + (if is_continuation "##ple" then 0 else 1)).
Proof.
  apply (word_index_step ["a"; "sm"; "##ple"; "test"] 1 "sm" "##ple" 1).
  - by_decide.
  - reflexivity.
  - reflexivity.
  - vm_compute. reflexivity.
Defined.

(** * Further properties of the typo index extractor *)

Lemma slice_1_m1_sentinels {A} (a b : A) (rows : list A) :
  slice_1_m1 (a :: rows ++ [b]) = rows.
Proof. unfold slice_1_m1. simpl. apply removelast_last. Qed.

Lemma py_getitem_head {A} (x : A) (xs : list A) : py_getitem (x :: xs) 0 = Ok x.
Proof. change 0 with (Z.of_nat 0). by rewrite py_getitem_nat. Qed.

Lemma get_typo_indexes_cons result0 others m tokens :
  get_typo_indexes (result0 :: others) m tokens
  = typo_loop m tokens ([], 0) (slice_1_m1 result0) ≫= λ st, Ok (fst st).
Proof. unfold get_typo_indexes. by rewrite py_getitem_head. Qed.

Lemma length_slice_1_m1 {A} (xs : list A) :
  length (slice_1_m1 xs) = (length xs - 2)%nat.
Proof.
  unfold slice_1_m1. destruct xs as [|a xs]; [done|]. simpl.
  destruct xs as [|b xs] using rev_ind; [done|].
  rewrite removelast_last, length_app. simpl. lia.
Qed.

(** X5: [get_typo_indexes] returns a list, without raising, when the batch
    entry has at most two rows more than there are tokens, none of the rows
    between the first and the last is empty, and every token has an entry in
    the map. *)
Theorem get_typo_indexes_well_formed (result0 : list (list score))
    (others : list (list (list score))) (map_to_words : gmap string Z)
    (tokens : list string) :
  (length result0 - 2 ≤ length tokens)%nat →
  Forall (λ row, row ≠ []) (slice_1_m1 result0) →
  (∀ t, t ∈ tokens → is_Some (map_to_words !! t)) →
  ∃ l, get_typo_indexes (result0 :: others) map_to_words tokens = Ok l.
Proof.
  intros Hlen Hrows Hm.
  apply (get_typo_indexes_returns _ result0); [done| |done|done].
  by rewrite length_slice_1_m1.
Qed.

Lemma get_typo_indexes_well_formed_witness :
  ∃ l, get_typo_indexes demo_result (token_to_words demo_tokens) demo_tokens
       = Ok l.
Proof.
  apply (get_typo_indexes_well_formed _ [] (token_to_words demo_tokens)
           demo_tokens).
  - vm_compute. lia.
  - by_decide.
  - apply token_to_words_in.
Defined.

(** X6: only the first batch entry is read, and its first and last rows (the
    two sentinel positions) never influence the result. *)
Theorem sentinel_rows_ignored (a b a' b' : list score) (rows : list (list score))
    (others : list (list (list score))) (map_to_words : gmap string Z)
    (tokens : list string) :
  get_typo_indexes ((a :: rows ++ [b]) :: others) map_to_words tokens
  = get_typo_indexes [a' :: rows ++ [b']] map_to_words tokens.
Proof. by rewrite !get_typo_indexes_cons, !slice_1_m1_sentinels. Qed.

(** X7: an empty result raises [IndexError]; a batch entry with at most two
    rows yields the empty list, whatever the map and the tokens. *)
Theorem short_result (result0 : list (list score)) (others : list (list (list score)))
    (map_to_words : gmap string Z) (tokens : list string) :
  get_typo_indexes [] map_to_words tokens = Raise IndexError ∧
  ((length result0 ≤ 2)%nat →
   get_typo_indexes (result0 :: others) map_to_words tokens = Ok []).
Proof.
  split; [done|]. intros Hlen. rewrite get_typo_indexes_cons.
  destruct result0 as [|a [|b [|c r]]]; try done. simpl in Hlen. lia.
Qed.

Lemma short_result_witness :
  get_typo_indexes [] (token_to_words demo_tokens) demo_tokens
  = Raise IndexError ∧
  get_typo_indexes [[row_sentinel; row_typo]] (token_to_words demo_tokens)
    demo_tokens = Ok [].
Proof.
  destruct (short_result [row_sentinel; row_typo] []
              (token_to_words demo_tokens) demo_tokens) as [H1 H2].
  split; [exact H1|]. apply H2. simpl. lia.
Defined.

Lemma typo_loop_unflagged m tokens rows : ∀ wrong c,
  Forall (λ row, ∃ p, np_argmax row = Ok p ∧ p ≠ 1) rows →
  typo_loop m tokens (wrong, c) rows
  = Ok (wrong, c + Z.of_nat (length rows)).
Proof.
  induction rows as [|row rows IH]; intros wrong c Hall.
  - simpl. do 2 f_equal. lia.
  - apply Forall_cons in Hall as [(p & Hp & Hne) Hall].
    change (typo_step m tokens (wrong, c) row
            ≫= (λ st', typo_loop m tokens st' rows)
            = Ok (wrong, c + Z.of_nat (length (row :: rows)))).
    unfold typo_step. rewrite Hp. simpl.
    apply Z.eqb_neq in Hne. rewrite Hne. simpl.
    rewrite IH by done. do 2 f_equal. simpl length. lia.
Qed.

(** X8: when no row between the sentinels has its maximum at index 1, the
    extractor returns the empty list without consulting the tokens or the
    map (so even with fewer tokens than rows). *)
Theorem unflagged_rows_yield_nothing (result0 : list (list score))
    (others : list (list (list score))) (map_to_words : gmap string Z)
    (tokens : list string) :
  Forall (λ row, ∃ p, np_argmax row = Ok p ∧ p ≠ 1) (slice_1_m1 result0) →
  get_typo_indexes (result0 :: others) map_to_words tokens = Ok [].
Proof.
  intros Hall. rewrite get_typo_indexes_cons.
  by rewrite typo_loop_unflagged.
Qed.

Lemma unflagged_rows_yield_nothing_witness :
  get_typo_indexes [[row_sentinel; row_ok; row_ok; row_ok; row_sentinel]]
    ∅ [] = Ok [].
Proof.
  apply unflagged_rows_yield_nothing.
  repeat constructor; exists 0; by vm_compute.
Defined.

Lemma np_argmax_pair (x y : score) :
  np_argmax [x; y] = Ok 1 ↔ flagged_pair x y.
Proof.
  destruct x as [a|], y as [b|]; simpl; [|done..].
  destruct (Qle_bool b a) eqn:Hle.
  - apply Qle_bool_iff in Hle. split; [done|].
    intros Hlt. by apply Qle_not_lt in Hle.
  - split; [|done]. intros _. apply Qnot_le_lt. intros Hba.
    apply Qle_bool_iff in Hba. congruence.
Qed.

(** X9: a position with scores [x; y] is flagged (argmax 1) exactly when [x]
    is a number and [y] is either NaN or a strictly greater number; the loop
    body then appends the word index of the token at that position unless it
    is already listed. *)
Theorem flagged_iff_typo_score_greater (x y : score)
    (map_to_words : gmap string Z) (tokens : list string)
    (wrong_words : list Z) (c : nat) (t : string) (w : Z) :
  tokens !! c = Some t → map_to_words !! t = Some w →
  (np_argmax [x; y] = Ok 1 ↔ flagged_pair x y) ∧
  (flagged_pair x y →
   typo_step map_to_words tokens (wrong_words, Z.of_nat c) [x; y]
   = Ok (if bool_decide (w ∈ wrong_words) then wrong_words
         else wrong_words ++ [w], Z.of_nat c + 1)).
Proof.
  intros Ht Hw. split; [apply np_argmax_pair|].
  intros Hlt. apply np_argmax_pair in Hlt.
  unfold typo_step. rewrite Hlt. simpl.
  rewrite py_getitem_nat, Ht. simpl. unfold py_dictitem. rewrite Hw. simpl.
  by destruct (bool_decide (w ∈ wrong_words)).
Qed.

Lemma flagged_iff_typo_score_greater_witness :
  (np_argmax [Num (1 # 3); NaN] = Ok 1 ↔ flagged_pair (Num (1 # 3)) NaN) ∧
  (flagged_pair (Num (1 # 3)) NaN →
   typo_step (token_to_words demo_tokens) demo_tokens ([1], Z.of_nat 4)
     [Num (1 # 3); NaN]
   = Ok (if bool_decide (3 ∈ [1]) then [1] else [1] ++ [3], Z.of_nat 4 + 1)).
Proof.
  apply (flagged_iff_typo_score_greater (Num (1 # 3)) NaN
           (token_to_words demo_tokens) demo_tokens [1] 4 "hpw" 3).
  - reflexivity.
  - vm_compute. reflexivity.
Defined.

Example np_argmax_nan :
  (np_argmax [Num (1 # 10); NaN], np_argmax [NaN; Num (1 # 2)],
   np_argmax [Num 1; NaN; Num 2], np_argmax [Num (1 # 10); Num (9 # 10)],
   np_argmax [Num 3; Num 1; Num 3])
  = (Ok 1, Ok 0, Ok 1, Ok 1, Ok 0).
Proof. vm_compute. reflexivity. Qed.

Lemma elem_of_flagged_at m tokens c row w :
  w ∈ flagged_at m tokens c row ↔
  np_argmax row = Ok 1 ∧ ∃ t, tokens !! c = Some t ∧ m !! t = Some w.
Proof.
  unfold flagged_at. destruct (np_argmax row) as [p|e].
  - destruct (Z.eqb_spec p 1) as [->|Hne].
    + destruct (tokens !! c) as [t|].
      * destruct (m !! t) as [w'|] eqn:Hm.
        -- rewrite list_elem_of_singleton. split.
           ++ intros ->. split; [done|]. by exists t.
           ++ intros (_ & t' & [= <-] & Hw). congruence.
        -- split; [by intros ?%elem_of_nil|].
           intros (_ & t' & [= <-] & Hw). congruence.
      * split; [by intros ?%elem_of_nil|]. by intros (_ & t' & [=] & _).
    + split; [by intros ?%elem_of_nil|]. intros ([= ?] & _). done.
  - split; [by intros ?%elem_of_nil|]. by intros ([=] & _).
Qed.

Lemma elem_of_flagged_indexes m tokens rows w : ∀ c,
  w ∈ flagged_indexes m tokens c rows ↔
  ∃ k row t, rows !! k = Some row ∧ np_argmax row = Ok 1 ∧
             tokens !! (c + k)%nat = Some t ∧ m !! t = Some w.
Proof.
  induction rows as [|row rows IH]; intros c; simpl.
  - split; [by intros ?%elem_of_nil|]. by intros (k & ? & ? & [=] & _).
  - rewrite elem_of_app, elem_of_flagged_at, IH. split.
    + intros [(Harg & t & Ht & Hw)|(k & row' & t & Hk & Harg & Ht & Hw)].
      * exists 0%nat, row, t. by rewrite Nat.add_0_r.
      * exists (S k), row', t. by rewrite Nat.add_succ_r.
    + intros (k & row' & t & Hk & Harg & Ht & Hw). destruct k as [|k].
      * left. injection Hk as <-. rewrite Nat.add_0_r in Ht. eauto.
      * right. exists k, row', t. by rewrite Nat.add_succ_r in Ht.
Qed.

(** X10: a returned list holds exactly the word indexes of the flagged
    positions: [w] is listed if and only if some row [k] between the
    sentinels has its maximum at index 1 and the map sends token [k] to
    [w]. *)
Theorem typo_indexes_exact (result0 : list (list score))
    (others : list (list (list score))) (map_to_words : gmap string Z)
    (tokens : list string) (l : list Z) (w : Z) :
  get_typo_indexes (result0 :: others) map_to_words tokens = Ok l →
  (w ∈ l ↔
   ∃ k row t, slice_1_m1 result0 !! k = Some row ∧ np_argmax row = Ok 1 ∧
              tokens !! k = Some t ∧ map_to_words !! t = Some w).
Proof.
  intros H. apply get_typo_indexes_spec in H as (r0 & [= <-] & ->).
  by rewrite elem_of_first_seen, elem_of_flagged_indexes.
Qed.

Lemma typo_indexes_exact_witness :
  3 ∈ [1; 3] ↔
  ∃ k row t, slice_1_m1 [row_sentinel; row_ok; row_typo; row_typo; row_ok;
                         row_typo; row_sentinel] !! k = Some row ∧
             np_argmax row = Ok 1 ∧ demo_tokens !! k = Some t ∧
             token_to_words demo_tokens !! t = Some 3.
Proof.
  apply (typo_indexes_exact _ [] (token_to_words demo_tokens) demo_tokens
           [1; 3] 3).
  vm_compute. reflexivity.
Defined.

Lemma typo_loop_beyond_tokens m tokens row post : ∀ pre wrong c,
  (∀ t, t ∈ tokens → is_Some (m !! t)) →
  Forall (λ r, r ≠ []) pre →
  (length tokens ≤ c + length pre)%nat →
  np_argmax row = Ok 1 →
  typo_loop m tokens (wrong, Z.of_nat c) (pre ++ row :: post)
  = Raise IndexError.
Proof.
  induction pre as [|r pre IH]; intros wrong c Hm Hpre Hlen Harg.
  - simpl in *. unfold typo_step. rewrite Harg. simpl.
    rewrite py_getitem_nat.
    rewrite (proj2 (lookup_ge_None tokens c)) by lia. done.
  - apply Forall_cons in Hpre as [Hr Hpre]. simpl in Hlen.
    change (typo_step m tokens (wrong, Z.of_nat c) r
            ≫= (λ st', typo_loop m tokens st' (pre ++ row :: post))
            = Raise IndexError).
    unfold typo_step. destruct r as [|x xs]; [done|].
    destruct (np_argmax_cons x xs) as [p ->]. simpl.
    replace (Z.of_nat c + 1) with (Z.of_nat (S c)) by lia.
    destruct (p =? 1).
    + rewrite py_getitem_nat. destruct (tokens !! c) as [t|] eqn:Ht; [|done].
      simpl. unfold py_dictitem.
      destruct (Hm t) as [w ->]; [by eapply list_elem_of_lookup_2|]. simpl.
      destruct (bool_decide (w ∈ wrong)); simpl; apply IH; (done || lia).
    + simpl. apply IH; (done || lia).
Qed.

(** X11: when every token has a map entry and the rows are non-empty, a
    flagged row lying beyond the last token makes the extractor raise
    [IndexError]. *)
Theorem flagged_row_beyond_tokens (a b row : list score)
    (pre post : list (list score)) (others : list (list (list score)))
    (map_to_words : gmap string Z) (tokens : list string) :
  (∀ t, t ∈ tokens → is_Some (map_to_words !! t)) →
  Forall (λ r, r ≠ []) pre →
  (length tokens ≤ length pre)%nat →
  np_argmax row = Ok 1 →
  get_typo_indexes ((a :: (pre ++ row :: post) ++ [b]) :: others)
    map_to_words tokens = Raise IndexError.
Proof.
  intros Hm Hpre Hlen Harg.
  rewrite get_typo_indexes_cons, slice_1_m1_sentinels.
  change 0 with (Z.of_nat 0).
  by rewrite typo_loop_beyond_tokens.
Qed.

Lemma flagged_row_beyond_tokens_witness :
  get_typo_indexes
    [row_sentinel :: ([row_ok; row_typo] ++ row_typo :: [row_ok])
                     ++ [row_sentinel]]
    (token_to_words ["ab"; "cd"]) ["ab"; "cd"] = Raise IndexError.
Proof.
  apply (flagged_row_beyond_tokens row_sentinel row_sentinel row_typo
           [row_ok; row_typo] [row_ok] []).
  - apply token_to_words_in.
  - by_decide.
  - simpl. lia.
  - reflexivity.
Defined.

(** * Further properties of the orchestrator *)

Lemma py_getitem_raise {A} (xs : list A) i e :
  py_getitem xs i = Raise e → e = IndexError.
Proof.
  unfold py_getitem. cbv zeta. destruct (_ || _); [by intros [= <-]|].
  destruct (xs !! _); [done | by intros [= <-]].
Qed.

Lemma comprehension_raise {A} (xs : list A) idxs e :
  comprehension (py_getitem xs) idxs = Raise e → e = IndexError.
Proof.
  induction idxs as [|i idxs IH]; [done|]. simpl.
  destruct (py_getitem xs i) eqn:Hi; simpl.
  - destruct (comprehension (py_getitem xs) idxs); [done|]. simpl.
    intros [= <-]. by apply IH.
  - intros [= <-]. by eapply py_getitem_raise.
Qed.

Lemma typo_step_raise m tokens st row e :
  (∀ t, t ∈ tokens → is_Some (m !! t)) →
  typo_step m tokens st row = Raise e → e = IndexError ∨ e = ValueError.
Proof.
  intros Hm. destruct st as [wrong c]. unfold typo_step.
  destruct row as [|x xs]; [intros [= <-]; by right|].
  destruct (np_argmax_cons x xs) as [p ->]. simpl.
  destruct (p =? 1); [|done].
  destruct (py_getitem tokens c) as [t|e'] eqn:Ht; simpl.
  - unfold py_dictitem.
    destruct (Hm t) as [w ->]; [by eapply py_getitem_elem_of|]. simpl.
    by destruct (bool_decide (w ∈ wrong)).
  - intros [= <-]. left. by eapply py_getitem_raise.
Qed.

Lemma typo_loop_raise m tokens rows e : ∀ st,
  (∀ t, t ∈ tokens → is_Some (m !! t)) →
  typo_loop m tokens st rows = Raise e → e = IndexError ∨ e = ValueError.
Proof.
  induction rows as [|row rows IH]; intros st Hm; [done|]. simpl.
  destruct (typo_step m tokens st row) as [st'|e'] eqn:Hstep; simpl.
  - by apply IH.
  - intros [= <-]. by eapply typo_step_raise.
Qed.

Lemma typo_indexes_of_raise tokenize infer sentence e :
  typo_indexes_of tokenize infer sentence = Raise e →
  e = IndexError ∨ e = ValueError.
Proof.
  unfold typo_indexes_of, get_typo_indexes.
  destruct (py_getitem (infer sentence) 0) as [r0|e'] eqn:H0; simpl.
  - destruct (typo_loop _ _ _ _) as [st|e'] eqn:Hloop; simpl; [done|].
    intros [= <-]. eapply typo_loop_raise; [|exact Hloop].
    apply token_to_words_in.
  - intros [= <-]. left. by eapply py_getitem_raise.
Qed.

(** X12: because the map is built from the very tokens that are looked up,
    [show_typos] never raises [KeyError]: an exception it raises is an
    [IndexError] or (on an empty score row) a [ValueError]. *)
Theorem show_typos_exceptions (tokenize : string → list string)
    (infer : string → list (list (list score))) (sentence : string) (e : exn) :
  show_typos tokenize infer sentence = Raise e →
  e = IndexError ∨ e = ValueError.
Proof.
  unfold show_typos.
  destruct (typo_indexes_of tokenize infer sentence) as [idxs|e'] eqn:Hidx;
    simpl.
  - destruct (comprehension _ idxs) as [typos|e'] eqn:Hc; simpl; [done|].
    intros [= <-]. left. by eapply comprehension_raise.
  - intros [= <-]. by eapply typo_indexes_of_raise.
Qed.

Lemma show_typos_exceptions_witness :
  IndexError = IndexError ∨ IndexError = ValueError.
Proof.
  apply (show_typos_exceptions (stub_tokenize ["e"; "-"; "mia"; "##l"])
           (stub_infer 4 [2%nat; 3%nat]) "e-mial").
  vm_compute. reflexivity.
Defined.

Lemma token_to_words_range (tokens : list string) t w :
  token_to_words tokens !! t = Some w → -1 ≤ w ≤ count_words tokens - 1.
Proof.
  intros Hw.
  assert (t ∈ tokens) as Hin by (apply token_to_words_Some_in; by eexists).
  destruct (last_occurrence tokens t Hin) as (i & Hi & Hlater).
  rewrite (token_to_words_lookup tokens i t Hi Hlater) in Hw.
  injection Hw as <-.
  pose proof (count_words_range (take (S i) tokens)).
  pose proof (count_words_take_le tokens (S i)). lia.
Qed.

Lemma typo_indexes_of_range tokenize infer sentence idxs :
  typo_indexes_of tokenize infer sentence = Ok idxs →
  Forall (λ i, -1 ≤ i ≤ count_words (tokenize sentence) - 1) idxs.
Proof.
  unfold typo_indexes_of. intros H.
  apply get_typo_indexes_spec in H as (r0 & _ & ->).
  apply Forall_forall. intros w Hw.
  apply elem_of_first_seen, elem_of_flagged_indexes in Hw
    as (k & row & t & _ & _ & _ & Hw).
  by eapply token_to_words_range.
Qed.

(** X13: every extracted index lies between -1 and the number of
    non-continuation tokens minus one.  Hence, when the sentence has at least
    one word and the tokenizer produced no more word-initial tokens than
    [sentence_split] produced words, all word lookups succeed and
    [show_typos] writes its output. *)
Theorem show_typos_succeeds (tokenize : string → list string)
    (infer : string → list (list (list score))) (sentence : string)
    (idxs : list Z) :
  typo_indexes_of tokenize infer sentence = Ok idxs →
  sentence_split sentence ≠ [] →
  count_words (tokenize sentence) ≤ Z.of_nat (length (sentence_split sentence)) →
  Forall (λ i, -1 ≤ i ≤ count_words (tokenize sentence) - 1) idxs ∧
  ∃ typos,
    length typos = length idxs ∧
    show_typos tokenize infer sentence
    = Ok (printed sentence (annotate sentence typos)).
Proof.
  intros Hidx Hne Hle.
  pose proof (typo_indexes_of_range _ _ _ _ Hidx) as Hrange.
  split; [done|].
  assert (Forall (in_range (sentence_split sentence)) idxs) as Hin.
  { eapply Forall_impl; [exact Hrange|]. intros i Hi. simpl in Hi.
    unfold in_range. destruct (sentence_split sentence); [done|].
    simpl length in *. lia. }
  destruct (comprehension_in_range _ _ Hin) as (typos & Hc & Hlen).
  exists typos. split; [done|]. unfold show_typos. rewrite Hidx. simpl.
  by rewrite Hc.
Qed.

Lemma show_typos_succeeds_witness :
  Forall (λ i, -1 ≤ i ≤ count_words
                 (stub_tokenize ["this"; "is"; "sm"; "##ple"]
                    "This is smple") - 1) [2] ∧
  ∃ typos,
    length typos = length [2] ∧
    show_typos (stub_tokenize ["this"; "is"; "sm"; "##ple"])
      (stub_infer 4 [2%nat; 3%nat]) "This is smple"
    = Ok (printed "This is smple" (annotate "This is smple" typos)).
Proof.
  apply (show_typos_succeeds (stub_tokenize ["this"; "is"; "sm"; "##ple"])
           (stub_infer 4 [2%nat; 3%nat]) "This is smple" [2]).
  - vm_compute. reflexivity.
  - by_decide.
  - vm_compute. discriminate.
Defined.

(** * Further properties of the sentence splitter *)

Lemma has_delim_app (a b : string) :
  has_delim (a +:+ b) = has_delim a || has_delim b.
Proof.
  induction a as [|c a IH]; [done|].
  rewrite append_cons. simpl. by rewrite IH, orb_assoc.
Qed.

Lemma re_split_from_elements s x : ∀ cur,
  has_delim cur = false → x ∈ re_split_from cur s →
  (∃ c, is_delim c = true ∧ x = String c "") ∨ has_delim x = false.
Proof.
  induction s as [|c s IH]; intros cur Hcur Hx; simpl in Hx.
  - apply list_elem_of_singleton in Hx as ->. by right.
  - destruct (is_delim c) eqn:Hc.
    + apply elem_of_cons in Hx as [->|Hx]; [by right|].
      apply elem_of_cons in Hx as [->|Hx]; [left; by exists c|].
      by apply (IH "").
    + apply (IH (cur +:+ String c "")); [|done].
      rewrite has_delim_app, Hcur. simpl. by rewrite Hc.
Qed.

(** X14: every element returned by [sentence_split] is either one of the
    punctuation marks ['], [,], [.] alone, or a non-empty word containing none
    of the four splitting characters. *)
Theorem sentence_split_elements (sentence x : string) :
  x ∈ sentence_split sentence →
  (x = "'" ∨ x = "," ∨ x = ".") ∨ (x ≠ "" ∧ has_delim x = false).
Proof.
  unfold sentence_split, re_split. intros Hx.
  apply list_elem_of_filter in Hx as [[Hsp Hne] Hx].
  destruct (re_split_from_elements sentence x "" eq_refl Hx)
    as [(c & Hc & ->)|Hd]; [|by right].
  left. unfold is_delim in Hc.
  repeat (apply orb_prop in Hc as [Hc|Hc]);
    apply Ascii.eqb_eq in Hc as ->; auto. done.
Qed.

Lemma sentence_split_elements_witness :
  ("smple" = "'" ∨ "smple" = "," ∨ "smple" = ".") ∨
  ("smple" ≠ "" ∧ has_delim "smple" = false).
Proof.
  apply (sentence_split_elements "a smple, test." "smple"). by_decide.
Defined.

Lemma re_split_from_occurs s x : ∀ cur,
  x ∈ re_split_from cur s →
  (∃ p post, x = cur +:+ p ∧ s = p +:+ post) ∨ occurs_in x s.
Proof.
  induction s as [|c s IH]; intros cur Hx; simpl in Hx.
  - apply list_elem_of_singleton in Hx as ->. left.
    exists "", "". by rewrite append_nil_r.
  - destruct (is_delim c).
    + apply elem_of_cons in Hx as [->|Hx].
      { left. exists "", (String c s). by rewrite append_nil_r. }
      apply elem_of_cons in Hx as [->|Hx].
      { right. by exists "", s. }
      right. apply IH in Hx as [(p & post & -> & ->)|(pre & post & ->)].
      * by exists (String c ""), post.
      * by exists (String c pre), post.
    + apply IH in Hx as [(p & post & -> & ->)|(pre & post & ->)].
      * left. exists (String c p), post. by rewrite append_assoc.
      * right. by exists (String c pre), post.
Qed.

Lemma occurs_in_count t s :
  t ≠ "" → occurs_in t s → (1 ≤ count_occurrences t s)%nat.
Proof.
  intros Hne (pre & post & ->). induction pre as [|c pre IH].
  - rewrite append_nil_l. destruct t as [|c t]; [done|].
    pose proof (prefix_app (String c t) post) as Hp.
    rewrite append_cons in *. cbn [count_occurrences]. rewrite Hp. lia.
  - rewrite append_cons. cbn [count_occurrences]. lia.
Qed.

Lemma sentence_split_occurs sentence x :
  x ∈ sentence_split sentence → x ≠ "" ∧ occurs_in x sentence.
Proof.
  unfold sentence_split, re_split. intros Hx.
  apply list_elem_of_filter in Hx as [[_ Hne] Hx]. split; [done|].
  apply re_split_from_occurs in Hx as [(p & post & -> & ->)|Hx]; [|done].
  by exists "", post.
Qed.

(** X15: every element returned by [sentence_split] is a non-empty literal
    substring of the sentence. *)
Theorem sentence_split_words_occur (sentence x : string) :
  x ∈ sentence_split sentence →
  x ≠ "" ∧ occurs_in x sentence ∧
  (1 ≤ count_occurrences x sentence)%nat.
Proof.
  intros Hx. apply sentence_split_occurs in Hx as [Hne Hocc].
  split; [done|]. split; [done|]. by apply occurs_in_count.
Qed.

Lemma sentence_split_words_occur_witness :
  "smple" ≠ "" ∧ occurs_in "smple" "a smple, test." ∧
  (1 ≤ count_occurrences "smple" "a smple, test.")%nat.
Proof. apply sentence_split_words_occur. by_decide. Defined.

Lemma re_split_from_app a d b : ∀ cur,
  is_delim d = true →
  re_split_from cur (a +:+ String d b)
  = re_split_from cur a ++ String d "" :: re_split_from "" b.
Proof.
  induction a as [|c a IH]; intros cur Hd.
  - rewrite append_nil_l. simpl. by rewrite Hd.
  - rewrite append_cons. simpl. destruct (is_delim c).
    + by rewrite IH.
    + by rewrite IH.
Qed.

(** X16: splitting distributes over a splitting character: the words of
    [a d b] are the words of [a], then [d] itself unless it is a space, then
    the words of [b]. *)
Theorem sentence_split_app (a b : string) (d : ascii) :
  is_delim d = true →
  sentence_split (a +:+ String d b)
  = sentence_split a
    ++ (if (d =? " ")%char then [] else [String d ""])
    ++ sentence_split b.
Proof.
  intros Hd. unfold sentence_split, re_split.
  rewrite re_split_from_app by done. rewrite filter_app. f_equal.
  rewrite filter_cons. destruct (Ascii.eqb_spec d " ") as [->|Hne].
  - by rewrite decide_False by tauto.
  - rewrite decide_True; [done|]. split; [|done]. by intros [= ?].
Qed.

Lemma sentence_split_app_witness :
  sentence_split ("my fiends" +:+ String "," " but")
  = sentence_split "my fiends"
    ++ (if ("," =? " ")%char then [] else [String "," ""])
    ++ sentence_split " but".
Proof. apply sentence_split_app. reflexivity. Defined.

Lemma str_join_nil (l : list string) :
  Forall (λ x, x ≠ "") l → str_join l = "" → l = [].
Proof.
  intros Hall Hj. destruct l as [|x l]; [done|].
  apply Forall_cons in Hall as [Hx _]. simpl in Hj. by destruct x.
Qed.

(** X17: [sentence_split] returns the empty list exactly when the sentence
    holds nothing but space characters (the empty sentence included). *)
Theorem sentence_split_nil_iff (sentence : string) :
  sentence_split sentence = [] ↔ remove_spaces sentence = "".
Proof.
  assert (str_join (sentence_split sentence) = remove_spaces sentence) as Hj
    by (unfold sentence_split, re_split; by rewrite sentence_split_from_join).
  split.
  - intros Hnil. by rewrite <- Hj, Hnil.
  - intros Hsp. apply str_join_nil; [|by rewrite Hj].
    apply Forall_forall. intros x Hx.
    by apply sentence_split_occurs in Hx as [? _].
Qed.

(** * Further properties of the annotation *)

Lemma length_replace_scan_ge old new : ∀ s skip,
  old ≠ "" → (String.length old ≤ String.length new)%nat →
  (skip ≤ String.length s)%nat →
  (String.length s - skip ≤ String.length (replace_scan old new skip s))%nat.
Proof.
  induction s as [|c s IH]; intros skip Hne Hlen Hskip; [simpl; lia|].
  assert (1 ≤ String.length old)%nat as Hold by (destruct old; [done|simpl; lia]).
  cbn [replace_scan].
  change (String.length (String c s)) with (S (String.length s)) in *.
  destruct skip as [|k].
  - destruct (String.prefix old (String c s)) eqn:Hp.
    + apply prefix_length in Hp.
      change (String.length (String c s)) with (S (String.length s)) in Hp.
      rewrite length_append.
      pose proof (IH (String.length old - 1)%nat Hne Hlen). lia.
    + change (String.length (String c (replace_scan old new 0 s)))
        with (S (String.length (replace_scan old new 0 s))).
      pose proof (IH 0%nat Hne Hlen). lia.
  - pose proof (IH k Hne Hlen). lia.
Qed.

Lemma length_replace_scan_grow old new : ∀ s,
  old ≠ "" → (String.length old ≤ String.length new)%nat →
  (1 ≤ count_occurrences old s)%nat →
  (String.length s + (String.length new - String.length old)
   ≤ String.length (replace_scan old new 0 s))%nat.
Proof.
  induction s as [|c s IH]; intros Hne Hlen Hocc; [simpl in Hocc; lia|].
  assert (1 ≤ String.length old)%nat as Hold by (destruct old; [done|simpl; lia]).
  cbn [replace_scan count_occurrences] in *.
  change (String.length (String c s)) with (S (String.length s)).
  destruct (String.prefix old (String c s)) eqn:Hp.
  - apply prefix_length in Hp.
    change (String.length (String c s)) with (S (String.length s)) in Hp.
    rewrite length_append.
    pose proof (length_replace_scan_ge old new s (String.length old - 1)%nat
                  Hne Hlen).
    lia.
  - change (String.length (String c (replace_scan old new 0 s)))
      with (S (String.length (replace_scan old new 0 s))).
    pose proof (IH Hne Hlen). lia.
Qed.

Lemma length_replace_empty new : ∀ s,
  (String.length s ≤ String.length (replace_empty new s))%nat.
Proof.
  induction s as [|c s IH]; simpl; [lia|].
  rewrite length_append. simpl. lia.
Qed.

Lemma length_mark t : String.length (mark t) = (String.length t + 7)%nat.
Proof. unfold mark. rewrite !length_append. simpl. lia. Qed.

Lemma length_str_replace_mark s t :
  (String.length s ≤ String.length (str_replace s t (mark t)))%nat.
Proof.
  unfold str_replace. destruct (decide (t = "")) as [->|Hne].
  - apply length_replace_empty.
  - pose proof (length_replace_scan_ge t (mark t) s 0%nat Hne) as H.
    rewrite length_mark in H. lia.
Qed.

Lemma length_annotate typos : ∀ s,
  (String.length s ≤ String.length (annotate s typos))%nat.
Proof.
  unfold annotate. induction typos as [|t typos IH]; intros s; simpl; [lia|].
  etrans; [apply (length_str_replace_mark s t)|apply IH].
Qed.

(** X18: converse of the zero-typo case.  When at least one typo index is
    extracted and [show_typos] returns, the annotated string is at least seven
    characters (one pair of markers) longer than the sentence, so it differs
    from it. *)
Theorem annotation_grows (tokenize : string → list string)
    (infer : string → list (list (list score))) (sentence : string)
    (idxs : list Z) (out : list string) :
  typo_indexes_of tokenize infer sentence = Ok idxs →
  idxs ≠ [] →
  show_typos tokenize infer sentence = Ok out →
  ∃ detected,
    out = printed sentence detected ∧
    (String.length sentence + 7 ≤ String.length detected)%nat.
Proof.
  intros Hidx Hne Hout. unfold show_typos in Hout. rewrite Hidx in Hout.
  simpl in Hout. apply bind_Ok_inv in Hout as (typos & Hc & [= <-]).
  exists (annotate sentence typos). split; [done|].
  destruct idxs as [|i idxs]; [done|]. simpl in Hc.
  apply bind_Ok_inv in Hc as (t & Ht & Hc).
  apply bind_Ok_inv in Hc as (typos' & _ & [= <-]).
  apply py_getitem_elem_of, sentence_split_occurs in Ht as [Htne Hocc].
  apply occurs_in_count in Hocc; [|done].
  change (annotate sentence (t :: typos'))
    with (annotate (str_replace sentence t (mark t)) typos').
  etrans; [|apply length_annotate].
  unfold str_replace. rewrite decide_False by done.
  pose proof (length_replace_scan_grow t (mark t) sentence Htne) as H.
  rewrite length_mark in H. lia.
Qed.

Lemma annotation_grows_witness :
  ∃ detected,
    printed "This is smple" "This is <i>smple</i>"
    = printed "This is smple" detected ∧
    (String.length "This is smple" + 7 ≤ String.length detected)%nat.
Proof.
  apply (annotation_grows (stub_tokenize ["this"; "is"; "sm"; "##ple"])
           (stub_infer 4 [2%nat; 3%nat]) "This is smple" [2]).
  - vm_compute. reflexivity.
  - discriminate.
  - vm_compute. reflexivity.
Defined.

(** X19: the pipeline-based [show_typos] never shortens the sentence, and
    writes it unchanged when the pipeline reports no span. *)
Theorem optimum_never_shrinks (nlp : string → list Optimum.entity)
    (sentence : string) :
  ∃ detected,
    Optimum.show_typos nlp sentence = Optimum.printed sentence detected ∧
    (String.length sentence ≤ String.length detected)%nat ∧
    (nlp sentence = [] → detected = sentence).
Proof.
  eexists. split; [reflexivity|]. split; [apply length_annotate|].
  by intros ->.
Qed.

Lemma substring_prefix (s : string) : ∀ m,
  ∃ post, s = String.substring 0 m s +:+ post.
Proof.
  induction s as [|c s IH]; intros m.
  - exists "". by destruct m.
  - destruct m as [|m]; simpl.
    + by exists (String c s).
    + destruct (IH m) as [post Hpost]. exists post.
      rewrite append_cons. by rewrite <- Hpost.
Qed.

Lemma substring_occurs (s : string) : ∀ n m,
  occurs_in (String.substring n m s) s.
Proof.
  induction s as [|c s IH]; intros n m.
  - exists "", "". by destruct n, m.
  - destruct n as [|n].
    + destruct (substring_prefix (String c s) m) as [post Hpost].
      by exists "", post.
    + simpl. destruct (IH n m) as (pre & post & Hs).
      exists (String c pre), post. rewrite append_cons. by rewrite <- Hs.
Qed.

(** X20: in the pipeline-based [show_typos], every string handed to the
    replacement loop is a literal (possibly empty) substring of the sentence,
    one per reported span, whatever the span bounds. *)
Theorem optimum_typos_occur (nlp : string → list Optimum.entity)
    (sentence : string) :
  ∃ typos,
    Optimum.show_typos nlp sentence
    = Optimum.printed sentence (annotate sentence typos) ∧
    length typos = length (nlp sentence) ∧
    Forall (λ t, occurs_in t sentence) typos.
Proof.
  eexists. split; [reflexivity|]. split; [by rewrite length_map|].
  apply Forall_forall. intros t Ht.
  apply list_elem_of_fmap in Ht as (r & -> & _).
  apply substring_occurs.
Qed.
